(** * The Doom-fire kernel of antigravity-demoscene-killer

    A shallow embedding of the fire simulation shared by the three C
    programs of the repository:

    - [fire-gfx.c]  (Cocoa window, 320 x 200 grid),
    - [fire-cube.c] (OpenGL cube, 128 x 128 grid, same kernel as fire-gfx),
    - [fire.c]      (terminal renderer, grid sized at run time).

    The kernel is [init_palette] (a 256-entry colour ramp) and
    [update_fire] (seed the bottom row, then sweep rows 0 .. height-2
    writing each row from the row below, in place).

    Conventions.  C [int] values are [Z]; no [int] computation of the
    kernel overflows for grids whose cell count fits an [int].  The one
    product computed before anything bounds it, [width * height] in
    [resize_buffers], is wrapped into 32 bits by [to_int], and [calloc]
    may return NULL.  A
    [uint8_t] cell is a [Z] and every store into one is reduced modulo
    256, as the C conversion does.  Buffers are lists indexed through
    stdpp's lookup and insert.  An access outside the buffer is
    undefined behaviour in C; here a load outside yields 0 and a store
    outside changes nothing; [accesses_inside_grid] shows, on the code
    run with checked accesses, that on a well-formed grid every access
    of the two phases is inside it.
    [rand()] is the sequence of non-negative values the generator will
    return, with the number of calls made so far.

    Around the kernel, [Module Terminal] embeds the output path of
    fire.c ([append_to_buffer], [flush_buffer], [render]), the loop of
    [main] and the flag words [init_terminal] computes. *)

From Stdlib Require Import ZArith Lia.
From Stdlib Require DecimalString.
From stdpp Require Import list list_numbers strings.

Local Open Scope Z_scope.

(** ** C arithmetic *)

(** Conversion of an [int] to [uint8_t]. *)
Definition to_u8 (v : Z) : Z := v mod 256.

(** Conversion of an [int] to [uint32_t]. *)
Definition to_u32 (v : Z) : Z := v mod 2 ^ 32.

(** The result of an [int] computation as the compiled code leaves it:
    two's complement wrap-around into 32 bits.  (Beyond [INT_MAX] the C
    standard leaves the result undefined.) *)
Definition INT_MAX : Z := 2147483647.

Definition to_int (v : Z) : Z := (v + 2 ^ 31) mod 2 ^ 32 - 2 ^ 31.

(** Conversion of an [int] to [size_t] (64 bits), as for the first
    argument of [calloc]. *)
Definition to_size_t (v : Z) : Z := v mod 2 ^ 64.

(** The C operators [a / b] and [a % b] (division truncates). *)
Definition c_div (a b : Z) : Z := Z.quot a b.

Definition c_rem (a b : Z) : Z := Z.rem a b.

(** ** The loop [for (int i = lo; i < hi; i++) body] *)

Fixpoint for_count {A : Type} (n : nat) (i : Z) (body : Z -> A -> A) (a : A) : A :=
  match n with
  | O => a
  | S n' => for_count n' (i + 1) body (body i a)
  end.

Definition for_loop {A : Type} (lo hi : Z) (body : Z -> A -> A) (a : A) : A :=
  for_count (Z.to_nat (hi - lo)) lo body a.

(** ** Buffers *)

(** [buf[i]] read as an [int]. *)
Definition peek (buf : list Z) (i : Z) : Z :=
  if i <? 0 then 0 else default 0 (buf !! Z.to_nat i).

(** [buf[i] = v] for a [uint8_t] buffer. *)
Definition poke (buf : list Z) (i v : Z) : list Z :=
  if i <? 0 then buf else <[Z.to_nat i := to_u8 v]> buf.

(** ** The simulation state: the heat buffer and the random generator *)

Record Fire : Type := MkFire {
  fire_buffer : list Z;      (* static uint8_t fire_buffer[...] *)
  rand_seq : nat -> N;       (* the values rand() returns, in order *)
  rand_calls : nat           (* how many have been consumed *)
}.

(** [rand()] *)
Definition rand (s : Fire) : Z * Fire :=
  (Z.of_N (rand_seq s (rand_calls s)),
   MkFire (fire_buffer s) (rand_seq s) (S (rand_calls s))).

(** [fire_buffer[i]] *)
Definition load (s : Fire) (i : Z) : Z := peek (fire_buffer s) i.

(** [fire_buffer[i] = v] *)
Definition store (s : Fire) (i v : Z) : Fire :=
  MkFire (poke (fire_buffer s) i v) (rand_seq s) (rand_calls s).

(** The value the [k]-th next call of [rand()] returns in state [s]. *)
Definition draw (s : Fire) (k : nat) : Z :=
  Z.of_N (rand_seq s (rand_calls s + k)).

(** A generator that returns the listed values and then zeros. *)
Definition scripted (l : list N) : nat -> N :=
  fun n => default 0%N (l !! n).

(** [clamp(v, lo, hi)] as the specification uses it. *)
Definition clamp (v lo hi : Z) : Z := Z.max lo (Z.min v hi).

(** A store as the pair of the index written and the [int] assigned;
    [None] when a loop body performs no store. *)
Definition apply_write (w : option (Z * Z)) (buf : list Z) : list Z :=
  match w with
  | Some (d, v) => poke buf d v
  | None => buf
  end.

(** A cell holds a [uint8_t]. *)
Definition heat_ok (v : Z) : Prop := 0 <= v <= 255.

(** A [W] x [H] grid, row-major, with rows and columns to sweep. *)
Definition well_formed (W H : Z) (s : Fire) : Prop :=
  0 < W /\ 0 < H /\
  Z.of_nat (length (fire_buffer s)) = W * H /\
  Forall heat_ok (fire_buffer s).

(** The state in which the nested loops
    [for y in 0 .. : for x in 0 .. W-1 : cell y x] reach cell (y, x):
    rows 0 .. y-1 are done, and columns 0 .. x-1 of row y. *)
Definition sweep_until (W : Z) (cell : Z -> Z -> Fire -> Fire) (y x : Z) (s : Fire) : Fire :=
  for_loop 0 x (cell y) (for_loop 0 y (fun y' => for_loop 0 W (cell y')) s).

(** ** Phase 1 of [update_fire]: seed the bottom row

    The three programs have the same text here (fire.c names the
    constant 60 [SPARK_CHANCE] and the row offset [last_row_idx]). *)

Definition SPARK_CHANCE : Z := 60.

Definition seed_cell (last_row x : Z) (s : Fire) : Fire :=
  let (r, s1) := rand s in
  if c_rem r 100 <? SPARK_CHANCE then
    let (r', s2) := rand s1 in
    store s2 (last_row + x) (255 - c_rem r' 50)
  else
    if 10 <? load s1 (last_row + x)
    then store s1 (last_row + x) (load s1 (last_row + x) - 5)
    else s1.

Definition seed_row (width height : Z) (s : Fire) : Fire :=
  let last_row := (height - 1) * width in
  for_loop 0 width (seed_cell last_row) s.

(** The store [seed_cell] performs from state [s], if any. *)
Definition seed_write (last_row x : Z) (s : Fire) : option (Z * Z) :=
  if c_rem (draw s 0) 100 <? SPARK_CHANCE then
    Some (last_row + x, 255 - c_rem (draw s 1) 50)
  else
    if 10 <? load s (last_row + x)
    then Some (last_row + x, load s (last_row + x) - 5)
    else None.

(** The state in which the seed loop reaches column [x]. *)
Definition seed_until (width height x : Z) (s : Fire) : Fire :=
  for_loop 0 x (seed_cell ((height - 1) * width)) s.

(** ** Bounds-checked accesses

    [fire_buffer[i]] read or stored with the index checked against the
    buffer: [None] is an access outside it.  The [_checked] functions
    are the loop bodies again, with every access to [fire_buffer] made
    through these two, and the loops stop at the first access outside
    the buffer. *)
Definition checked_load (s : Fire) (i : Z) : option Z :=
  if (0 <=? i) && (i <? Z.of_nat (length (fire_buffer s)))
  then Some (load s i) else None.

Definition checked_store (s : Fire) (i v : Z) : option Fire :=
  if (0 <=? i) && (i <? Z.of_nat (length (fire_buffer s)))
  then Some (store s i v) else None.

(** A turn of a checked loop: nothing more is done after a fault. *)
Definition and_then (body : Fire -> option Fire) (o : option Fire) : option Fire :=
  match o with
  | Some s => body s
  | None => None
  end.

Definition seed_cell_checked (last_row x : Z) (s : Fire) : option Fire :=
  let (r, s1) := rand s in
  if c_rem r 100 <? SPARK_CHANCE then
    let (r', s2) := rand s1 in
    checked_store s2 (last_row + x) (255 - c_rem r' 50)
  else
    match checked_load s1 (last_row + x) with
    | None => None
    | Some cell =>
        if 10 <? cell
        then match checked_load s1 (last_row + x) with
             | None => None
             | Some old => checked_store s1 (last_row + x) (old - 5)
             end
        else Some s1
    end.

Definition seed_row_checked (width height : Z) (s : Fire) : option Fire :=
  let last_row := (height - 1) * width in
  for_loop 0 width (fun x => and_then (seed_cell_checked last_row x)) (Some s).

(** ** fire-gfx.c and fire-cube.c *)

Module Gfx.

(** The channels computed for palette index [i]. *)
Definition ramp (i : Z) : Z * Z * Z :=
  if i <? 64 then (to_u8 (i * 4), 0, 0)
  else if i <? 128 then (255, to_u8 ((i - 64) * 4), 0)
  else if i <? 192 then (255, 255, to_u8 ((i - 128) * 4))
  else (255, 255, 255).

(** [(0xFF << 24) | (r << 16) | (g << 8) | b] stored in a [uint32_t]. *)
Definition argb (c : Z * Z * Z) : Z :=
  let '(r, g, b) := c in
  to_u32 (Z.lor (Z.lor (Z.lor (Z.shiftl 255 24) (Z.shiftl r 16)) (Z.shiftl g 8)) b).

(** [init_palette], acting on the global [palette[256]]. *)
Definition init_palette (palette : list Z) : list Z :=
  for_loop 0 256 (fun i pal => <[Z.to_nat i := argb (ramp i)]> pal) palette.

(** The red, green and blue bytes of a packed 0xAARRGGBB pixel. *)
Definition channels (p : Z) : Z * Z * Z :=
  (Z.land (Z.shiftr p 16) 255, Z.land (Z.shiftr p 8) 255, Z.land p 255).

Definition alpha (p : Z) : Z := Z.land (Z.shiftr p 24) 255.

Section Grid.
(** [FIRE_WIDTH] and [FIRE_HEIGHT] are macros: 320 x 200 in
    fire-gfx.c, 128 x 128 in fire-cube.c. *)
Variables FIRE_WIDTH FIRE_HEIGHT : Z.

(** The body of the inner propagation loop. *)
Definition propagate_cell (y x : Z) (s : Fire) : Fire :=
  let src_idx := (y + 1) * FIRE_WIDTH + x in
  let val := load s src_idx in
  if val =? 0 then
    store s (y * FIRE_WIDTH + x) 0
  else
    let (r1, s1) := rand s in
    let decay := c_rem r1 3 in
    let (r2, s2) := rand s1 in
    let dst_x := x - c_rem r2 3 + 1 in
    let dst_x := if dst_x <? 0 then 0 else dst_x in
    let dst_x := if dst_x >=? FIRE_WIDTH then FIRE_WIDTH - 1 else dst_x in
    let dst_idx := y * FIRE_WIDTH + dst_x in
    let new_val := val - decay in
    let new_val := if new_val <? 0 then 0 else new_val in
    store s2 dst_idx new_val.

Definition propagate_row (y : Z) (s : Fire) : Fire :=
  for_loop 0 FIRE_WIDTH (propagate_cell y) s.

Definition propagate (s : Fire) : Fire :=
  for_loop 0 (FIRE_HEIGHT - 1) propagate_row s.

(** Phase 3: [pixel_buffer[i] = palette[fire_buffer[i]]]. *)
Definition render (palette : list Z) (s : Fire) (pixel_buffer : list Z) : list Z :=
  for_loop 0 (FIRE_WIDTH * FIRE_HEIGHT)
    (fun i px => <[Z.to_nat i := peek palette (load s i)]> px) pixel_buffer.

(** The heat part of [update_fire] (phases 1 and 2). *)
Definition update_heat (s : Fire) : Fire :=
  propagate (seed_row FIRE_WIDTH FIRE_HEIGHT s).

(** The store [propagate_cell] performs from state [s]. *)
Definition cell_write (y x : Z) (s : Fire) : option (Z * Z) :=
  let val := load s ((y + 1) * FIRE_WIDTH + x) in
  if val =? 0 then Some (y * FIRE_WIDTH + x, 0)
  else
    let decay := c_rem (draw s 0) 3 in
    let dst_x := x - c_rem (draw s 1) 3 + 1 in
    let dst_x := if dst_x <? 0 then 0 else dst_x in
    let dst_x := if dst_x >=? FIRE_WIDTH then FIRE_WIDTH - 1 else dst_x in
    let new_val := val - decay in
    Some (y * FIRE_WIDTH + dst_x, if new_val <? 0 then 0 else new_val).

(** The state in which one call of [update_fire] on [s] reaches
    cell (y, x) of the propagation loops. *)
Definition visit (y x : Z) (s : Fire) : Fire :=
  sweep_until FIRE_WIDTH propagate_cell y x (seed_row FIRE_WIDTH FIRE_HEIGHT s).

(** Phases 1 and 2 with checked accesses. *)
Definition propagate_cell_checked (y x : Z) (s : Fire) : option Fire :=
  let src_idx := (y + 1) * FIRE_WIDTH + x in
  match checked_load s src_idx with
  | None => None
  | Some val =>
      if val =? 0 then
        checked_store s (y * FIRE_WIDTH + x) 0
      else
        let (r1, s1) := rand s in
        let decay := c_rem r1 3 in
        let (r2, s2) := rand s1 in
        let dst_x := x - c_rem r2 3 + 1 in
        let dst_x := if dst_x <? 0 then 0 else dst_x in
        let dst_x := if dst_x >=? FIRE_WIDTH then FIRE_WIDTH - 1 else dst_x in
        let dst_idx := y * FIRE_WIDTH + dst_x in
        let new_val := val - decay in
        let new_val := if new_val <? 0 then 0 else new_val in
        checked_store s2 dst_idx new_val
  end.

Definition propagate_checked (s : Fire) : option Fire :=
  for_loop 0 (FIRE_HEIGHT - 1)
    (fun y => for_loop 0 FIRE_WIDTH (fun x => and_then (propagate_cell_checked y x)))
    (Some s).

Definition update_heat_checked (s : Fire) : option Fire :=
  and_then propagate_checked (seed_row_checked FIRE_WIDTH FIRE_HEIGHT s).

(** [update_fire]: the new heat state and the new [pixel_buffer]. *)
Definition update_fire (palette : list Z) (s : Fire) (pixel_buffer : list Z)
  : Fire * list Z :=
  let s' := update_heat s in
  (s', render palette s' pixel_buffer).
End Grid.

(** The two programs built on this kernel. *)
Definition fire_gfx_update_fire := update_fire 320 200.

Definition fire_cube_update_fire := update_fire 128 128.

End Gfx.

(** ** fire.c, the terminal renderer *)

Module Term.

Definition COOLING_MIN : Z := 0.
Definition COOLING_MAX : Z := 3.

Record ColorRGB : Type := MkColor { r : Z; g : Z; b : Z }.

(** The [ColorRGB c] built for palette index [i]. *)
Definition ramp (i : Z) : ColorRGB :=
  let c := MkColor 0 0 0 in
  if i <? 64 then MkColor (to_u8 (i * 4)) (g c) (b c)
  else if i <? 128 then MkColor 255 (to_u8 ((i - 64) * 4)) (b c)
  else if i <? 192 then MkColor 255 255 (to_u8 ((i - 128) * 4))
  else MkColor 255 255 255.

(** The xterm 256-colour index chosen for palette index [i]. *)
Definition ramp_256 (i : Z) : Z :=
  if i =? 0 then 16
  else if i <? 64 then to_u8 (52 + c_div i 16)
  else if i <? 128 then to_u8 (160 + c_div (i - 64) 16 * 6)
  else if i <? 220 then to_u8 (202 + c_div (i - 128) 10)
  else 231.

(** [init_palette], acting on [palette_rgb[256]] and [palette_256[256]]. *)
Definition init_palette (pals : list ColorRGB * list Z) : list ColorRGB * list Z :=
  for_loop 0 256
    (fun i p => (<[Z.to_nat i := ramp i]> (fst p), <[Z.to_nat i := ramp_256 i]> (snd p)))
    pals.

(** The globals of fire.c that the simulation uses. *)
Record State : Type := MkState {
  width : Z;
  height : Z;
  fire : Fire;               (* fire_buffer and the generator *)
  prev_buffer : list Z
}.

(** How a call of a [void] function of fire.c can end: it returns,
    or the process exits with a status (as [init_terminal] does). *)
Inductive Outcome : Type :=
| Returned (t : State)
| Exited (status : Z).

(** [calloc(n, 1)] for an [int] [n], when the allocator can satisfy a
    request of up to [room] bytes: [n] zero bytes, or NULL when the
    request, converted to [size_t], is larger.  A NULL buffer has no
    cell that may be accessed; it is the empty list, as at program
    start. *)
Definition calloc (room : Z) (n : Z) : list Z :=
  let size := to_size_t n in
  if size <=? room then replicate (Z.to_nat size) 0 else [].

(** [resize_buffers(w, h)].  [fire_room] and [prev_room] are what the
    allocator can satisfy at the two [calloc] calls; the code does not
    test what they return.  The product [width * height] is an [int]. *)
Definition resize_buffers (fire_room prev_room : Z) (w h : Z) (t : State) : Outcome :=
  if (w =? width t) && (h =? height t) then Returned t
  else
    let cells := to_int (w * h) in
    Returned (MkState w h
                (MkFire (calloc fire_room cells) (rand_seq (fire t)) (rand_calls (fire t)))
                (calloc prev_room cells)).

(** The state at program start: no buffers, zero dimensions. *)
Definition initial (seq : nat -> N) : State :=
  MkState 0 0 (MkFire [] seq 0) [].

Section Grid.
(** The globals [width] and [height], constant during [update_fire]. *)
Variables width height : Z.

(** The body of the inner propagation loop. *)
Definition propagate_cell (y x : Z) (s : Fire) : Fire :=
  let src_idx := (y + 1) * width + x in
  let (r1, s1) := rand s in
  let decay := c_rem r1 (COOLING_MAX + 1) in
  let val := load s1 src_idx in
  if val >? 0 then
    let (r2, s2) := rand s1 in
    let rand_idx := c_rem r2 3 in
    let dst_x := x - rand_idx + 1 in
    if (dst_x >=? 0) && (dst_x <? width) then
      let dst_idx := y * width + dst_x in
      let new_val := val - decay in
      let new_val := if new_val <? 0 then 0 else new_val in
      store s2 dst_idx new_val
    else s2
  else
    store s1 (y * width + x) 0.

Definition propagate_row (y : Z) (s : Fire) : Fire :=
  for_loop 0 width (propagate_cell y) s.

Definition propagate (s : Fire) : Fire :=
  for_loop 0 (height - 1) propagate_row s.

Definition update_heat (s : Fire) : Fire :=
  propagate (seed_row width height s).

(** The store [propagate_cell] performs from state [s], if any. *)
Definition cell_write (y x : Z) (s : Fire) : option (Z * Z) :=
  let decay := c_rem (draw s 0) (COOLING_MAX + 1) in
  let val := load s ((y + 1) * width + x) in
  if val >? 0 then
    let dst_x := x - c_rem (draw s 1) 3 + 1 in
    if (dst_x >=? 0) && (dst_x <? width) then
      let new_val := val - decay in
      Some (y * width + dst_x, if new_val <? 0 then 0 else new_val)
    else None
  else Some (y * width + x, 0).

(** The state in which one call of [update_fire] reaches cell
    (y, x) of the propagation loops. *)
Definition visit (y x : Z) (s : Fire) : Fire :=
  sweep_until width propagate_cell y x (seed_row width height s).
(** Phases 1 and 2 with checked accesses. *)
Definition propagate_cell_checked (y x : Z) (s : Fire) : option Fire :=
  let src_idx := (y + 1) * width + x in
  let (r1, s1) := rand s in
  let decay := c_rem r1 (COOLING_MAX + 1) in
  match checked_load s1 src_idx with
  | None => None
  | Some val =>
      if val >? 0 then
        let (r2, s2) := rand s1 in
        let rand_idx := c_rem r2 3 in
        let dst_x := x - rand_idx + 1 in
        if (dst_x >=? 0) && (dst_x <? width) then
          let dst_idx := y * width + dst_x in
          let new_val := val - decay in
          let new_val := if new_val <? 0 then 0 else new_val in
          checked_store s2 dst_idx new_val
        else Some s2
      else
        checked_store s1 (y * width + x) 0
  end.

Definition propagate_checked (s : Fire) : option Fire :=
  for_loop 0 (height - 1)
    (fun y => for_loop 0 width (fun x => and_then (propagate_cell_checked y x)))
    (Some s).

Definition update_heat_checked (s : Fire) : option Fire :=
  and_then propagate_checked (seed_row_checked width height s).
End Grid.

(** [update_fire] *)
Definition update_fire (t : State) : State :=
  MkState (width t) (height t)
          (update_heat (width t) (height t) (fire t))
          (prev_buffer t).

End Term.

(** ** fire.c: the output buffer, [render] and the loop of [main]

    The terminal is written through [out_buf]: [append_to_buffer]
    copies text into it and [flush_buffer] hands it to [write(2)].
    [written] is the sequence of bytes handed over by the calls
    [write(STDOUT_FILENO, out_buf, out_buf_len)], in order; the code
    does not look at what [write] returns.  What [printf] sends
    through stdio ([resize_buffers], [init_terminal]) is not part of
    this record. *)

Module Terminal.

Definition OUT_BUF_SIZE : Z := 256 * 1024.

Record Output : Type := MkOutput {
  out_buf : list Ascii.ascii;   (* static char out_buf[OUT_BUF_SIZE] *)
  out_buf_len : Z;              (* static int out_buf_len *)
  written : list Ascii.ascii    (* the bytes given to write(2) so far *)
}.

(** [flush_buffer] *)
Definition flush_buffer (o : Output) : Output :=
  if out_buf_len o >? 0 then
    MkOutput (out_buf o) 0
             (written o ++ take (Z.to_nat (out_buf_len o)) (out_buf o))
  else o.

(** [memcpy(dst + off, src, n)]; [src] holds at least [n] bytes. *)
Definition memcpy (dst : list Ascii.ascii) (off : Z) (src : string) (n : Z) : list Ascii.ascii :=
  list_inserts (Z.to_nat off) (take (Z.to_nat n) (String.list_ascii_of_string src)) dst.

(** [append_to_buffer(str, len)] *)
Definition append_to_buffer (str : string) (len : Z) (o : Output) : Output :=
  let o1 := if out_buf_len o + len >=? OUT_BUF_SIZE then flush_buffer o else o in
  MkOutput (memcpy (out_buf o1) (out_buf_len o1) str len)
           (out_buf_len o1 + len)
           (written o1).

(** The escape character, written [\033] in the C strings. *)
Definition ESC : Ascii.ascii := Ascii.ascii_of_nat 27.

(** What [%d] prints for an [int]. *)
Definition decimal (n : Z) : string :=
  DecimalString.NilZero.string_of_int (Z.to_int n).

(** The globals [render] reads besides the heat grid. *)
Record Display : Type := MkDisplay {
  truecolor : bool;
  palette_rgb : list Term.ColorRGB;
  palette_256 : list Z
}.

(** The text the two [sprintf] calls leave in [pixel_buf[64]] for a
    cell of the given intensity. *)
Definition pixel_text (d : Display) (intensity : Z) : string :=
  if truecolor d then
    let c := default (Term.MkColor 0 0 0) (palette_rgb d !! Z.to_nat intensity) in
    String ESC "[48;2;" +:+ decimal (Term.r c) +:+ ";" +:+ decimal (Term.g c)
      +:+ ";" +:+ decimal (Term.b c) +:+ "m "
  else
    let c := peek (palette_256 d) intensity in
    String ESC "[48;5;" +:+ decimal c +:+ "m ".

(** The body of the inner loop of [render]. *)
Definition render_cell (d : Display) (t : Term.State) (y x : Z) (o : Output) : Output :=
  let idx := y * Term.width t + x in
  let intensity := load (Term.fire t) idx in
  let pixel_buf := pixel_text d intensity in
  let pixel_len := Z.of_nat (String.length pixel_buf) in
  append_to_buffer pixel_buf pixel_len o.

(** [render] *)
Definition render (d : Display) (t : Term.State) (o : Output) : Output :=
  let o := append_to_buffer (String ESC "[H") 3 o in
  let o := for_loop 0 (Term.height t - 1)
             (fun y => for_loop 0 (Term.width t) (render_cell d t y)) o in
  let o := append_to_buffer (String ESC "[0m") 4 o in
  flush_buffer o.

(** What one turn of the loop of [main] gets from its environment: the
    window size [ioctl] reports in [w.ws_col] and [w.ws_row], and what
    the allocator could satisfy at the two [calloc] calls of
    [resize_buffers]. *)
Record Turn : Type := MkTurn {
  ws_col : Z;
  ws_row : Z;
  fire_room : Z;
  prev_room : Z
}.

(** One turn of the [while (running)] loop of [main]; [None] when the
    process exits inside the turn. *)
Definition main_loop_turn (d : Display) (e : Turn)
    (st : Term.State * Output) : option (Term.State * Output) :=
  let (t, o) := st in
  let resized :=
    if negb (ws_col e =? Term.width t) || negb (ws_row e =? Term.height t)
    then Term.resize_buffers (fire_room e) (prev_room e) (ws_col e) (ws_row e) t
    else Term.Returned t in
  match resized with
  | Term.Returned t1 =>
      let t2 := Term.update_fire t1 in
      Some (t2, render d t2 o)
  | Term.Exited _ => None
  end.

(** The flag words of [struct termios] that [init_terminal] changes;
    it copies every other field of [orig_termios] as it is. *)
Record termios : Type := MkTermios {
  c_iflag : Z;
  c_oflag : Z;
  c_lflag : Z
}.

Section RawMode.
(** The masks of <termios.h>; their values depend on the platform. *)
Variables ECHO ICANON IEXTEN ISIG IXON ICRNL OPOST : Z.

(** The settings [init_terminal] hands to [tcsetattr], computed from
    the ones [tcgetattr] returned. *)
Definition raw_settings (orig_termios : termios) : termios :=
  let raw := orig_termios in
  let lflag :=
    Z.land (c_lflag raw) (Z.lnot (Z.lor (Z.lor (Z.lor ECHO ICANON) IEXTEN) ISIG)) in
  let lflag := Z.lor lflag ISIG in
  let iflag := Z.land (c_iflag raw) (Z.lnot (Z.lor IXON ICRNL)) in
  let oflag := Z.land (c_oflag raw) (Z.lnot OPOST) in
  MkTermios iflag oflag lflag.
End RawMode.

(** [static char out_buf[OUT_BUF_SIZE]; static int out_buf_len = 0;]
    at program start, nothing written yet. *)
Definition initial_output : Output :=
  MkOutput (replicate (Z.to_nat OUT_BUF_SIZE) Ascii.zero) 0 [].

(** The loop of [main] over what its successive turns get from the
    environment. *)
Fixpoint main_loop (d : Display) (turns : list Turn)
    (st : Term.State * Output) : option (Term.State * Output) :=
  match turns with
  | [] => Some st
  | e :: rest =>
      match main_loop_turn d e st with
      | Some st' => main_loop d rest st'
      | None => None
      end
  end.

End Terminal.

(** ** Observations used by the statements *)

(** The colour ramp as the specification words it: four linear ramps
    with breakpoints 64, 128 and 192 and multiplier 4. *)
Definition spec_ramp (i : Z) : Z * Z * Z :=
  if i <? 64 then (i * 4, 0, 0)
  else if i <? 128 then (255, (i - 64) * 4, 0)
  else if i <? 192 then (255, 255, (i - 128) * 4)
  else (255, 255, 255).

(** The colour shown for intensity [i] by the windowed programs and by
    the terminal program. *)
Definition gfx_color (palette : list Z) (i : Z) : option (Z * Z * Z) :=
  Gfx.channels <$> palette !! Z.to_nat i.

Definition term_color (palette_rgb : list Term.ColorRGB) (i : Z) : option (Z * Z * Z) :=
  (fun c => (Term.r c, Term.g c, Term.b c)) <$> palette_rgb !! Z.to_nat i.

(** The sum R+G+B of a colour. *)
Definition brightness (c : Z * Z * Z) : Z :=
  let '(r, g, b) := c in r + g + b.

(** What the seed loop does to a bottom cell holding [old], reached in
    state [sx], leaving [new]: a spark when the first draw modulo 100 is
    below [SPARK_CHANCE], else a cooling step of 5 for a cell above 10. *)
Definition seed_outcome (sx : Fire) (old new : Z) : Prop :=
  (c_rem (draw sx 0) 100 < SPARK_CHANCE ->
   new = 255 - c_rem (draw sx 1) 50 /\ 205 <= new <= 255) /\
  (SPARK_CHANCE <= c_rem (draw sx 0) 100 -> 10 < old -> new = old - 5) /\
  (SPARK_CHANCE <= c_rem (draw sx 0) 100 -> old <= 10 -> new = old).

(** What the nested propagation loops need of their body: it performs
    at most one store, [write y x s]; the store lands in row [y], at
    most one column away from [x]; and it is a store of 0 at (y, x)
    when the cell below holds 0. *)
Record local_body (W : Z) (cell : Z -> Z -> Fire -> Fire)
    (write : Z -> Z -> Fire -> option (Z * Z)) : Prop := LocalBody {
  body_width : 0 < W;
  body_buffer : forall y x s,
    fire_buffer (cell y x s) = apply_write (write y x s) (fire_buffer s);
  body_seq : forall y x s, rand_seq (cell y x s) = rand_seq s;
  body_near : forall y x s d v,
    0 <= x < W -> write y x s = Some (d, v) ->
    y * W <= d < (y + 1) * W /\ y * W + x - 1 <= d <= y * W + x + 1;
  body_zero : forall y x s,
    load s ((y + 1) * W + x) = 0 -> write y x s = Some (y * W + x, 0)
}.

(** ** Example frames

    Small grids with a scripted generator.  fire.c takes its grid size
    from the terminal, so these are grids it can run on; for the
    kernel of fire-gfx.c they stand for [FIRE_WIDTH] and [FIRE_HEIGHT]
    set to the small size.  In the seed loop a draw of
    0 sparks (and the next draw of 0 stores 255) and a draw of 99 does
    not; in the sweep a drift draw of 0 targets column x+1, 1 targets
    x, and 2 targets x-1. *)

(** 1 x 3: only the middle cell is lit; the bottom cell sparks and
    both sweep steps go straight up without decay. *)
Definition frame_column : Fire :=
  MkFire [0; 100; 0] (scripted [0; 0; 0; 1; 0; 1]%N) 0.

(** 2 x 3: only cell (1, 1) is lit; no spark; fire-gfx.c draws decay 0
    and drift 2 at cell (0, 1). *)
Definition frame_drift_gfx : Fire :=
  MkFire [0; 0; 0; 50; 0; 0] (scripted [99; 99; 0; 2]%N) 0.

(** The same grid for fire.c, which draws a decay at cell (0, 0) too. *)
Definition frame_drift_term : Fire :=
  MkFire [0; 0; 0; 50; 0; 0] (scripted [99; 99; 0; 0; 2]%N) 0.

(** 1 x 2, all dark; the bottom cell sparks and row 0 takes its heat
    straight up. *)
Definition frame_dark : Fire :=
  MkFire [0; 0] (scripted [0; 0; 0; 1]%N) 0.

(** 2 x 2: row 0 holds old heat 7, the bottom row sparks to 255; at
    (0, 0) the drift is to the left, at (0, 1) to the right. *)
Definition frame_edges : Fire :=
  MkFire [7; 7; 0; 0] (scripted [0; 0; 0; 0; 1; 2; 1; 0]%N) 0.

(** 2 x 2: row 0 holds old heat 7 and every draw is 0, so the bottom
    row sparks to 255 and every drift is to the right. *)
Definition frame_stale : Fire :=
  MkFire [7; 7; 0; 0] (scripted []) 0.

(** 8 x 8: the bottom row is at 255 and every draw is 99: no spark. *)
Definition frame_cooling : Fire :=
  MkFire (replicate 56 0 ++ replicate 8 255) (fun _ => 99%N) 0.

(** 8 x 8, all dark, every draw is 0: every bottom cell sparks. *)
Definition frame_sparks : Fire :=
  MkFire (replicate 64 0) (fun _ => 0%N) 0.

(** 1 x 2, as the sweep finds it at cell (0, 0): the cell below holds
    100, the decay draw is 3 and the drift draw 1 (straight up). *)
Definition frame_decay : Fire :=
  MkFire [0; 100] (scripted [3; 1]%N) 0.

(** 2 x 2, as the sweep finds it at cell (0, 0): row 0 holds old heat
    7, the row below 255, the decay draw is 1 and the drift draw 2 (to
    the left, off the grid). *)
Definition frame_left_edge : Fire :=
  MkFire [7; 7; 255; 255] (scripted [1; 2]%N) 0.

(** The palette arrays at program start: static storage, all zero. *)
Definition palette_at_start : list Z := replicate 256 0.

Definition palettes_at_start : list Term.ColorRGB * list Z :=
  (replicate 256 (Term.MkColor 0 0 0), replicate 256 0).

(** The 320 x 200 grid of fire-gfx.c with every cell at 100, for any
    generator. *)
Definition frame_gfx_warm (seq : nat -> N) : Fire :=
  MkFire (replicate (Z.to_nat (320 * 200)) 100) seq 0.

(** ** A double-buffered sweep, for comparison

    The two loop bodies again, with one change: the cell below is read
    from a snapshot [src] of the heat buffer, not from the live buffer.
    [sweep_from] takes the snapshot when the sweep starts, that is,
    after the seed loop. *)

Definition gfx_cell_from (src : list Z) (W y x : Z) (s : Fire) : Fire :=
  let src_idx := (y + 1) * W + x in
  let val := peek src src_idx in
  if val =? 0 then
    store s (y * W + x) 0
  else
    let (r1, s1) := rand s in
    let decay := c_rem r1 3 in
    let (r2, s2) := rand s1 in
    let dst_x := x - c_rem r2 3 + 1 in
    let dst_x := if dst_x <? 0 then 0 else dst_x in
    let dst_x := if dst_x >=? W then W - 1 else dst_x in
    let dst_idx := y * W + dst_x in
    let new_val := val - decay in
    let new_val := if new_val <? 0 then 0 else new_val in
    store s2 dst_idx new_val.

Definition term_cell_from (src : list Z) (W y x : Z) (s : Fire) : Fire :=
  let src_idx := (y + 1) * W + x in
  let (r1, s1) := rand s in
  let decay := c_rem r1 (Term.COOLING_MAX + 1) in
  let val := peek src src_idx in
  if val >? 0 then
    let (r2, s2) := rand s1 in
    let rand_idx := c_rem r2 3 in
    let dst_x := x - rand_idx + 1 in
    if (dst_x >=? 0) && (dst_x <? W) then
      let dst_idx := y * W + dst_x in
      let new_val := val - decay in
      let new_val := if new_val <? 0 then 0 else new_val in
      store s2 dst_idx new_val
    else s2
  else
    store s1 (y * W + x) 0.

Definition sweep_from (cell_from : list Z -> Z -> Z -> Z -> Fire -> Fire)
    (W H : Z) (s : Fire) : Fire :=
  let src := fire_buffer s in
  for_loop 0 (H - 1) (fun y => for_loop 0 W (cell_from src W y)) s.

(** ** Further observations

    [risen_from D W below x v]: the value [v] is what one of the cells
    below columns x-1, x, x+1 held, less a decay of at most [D], and not
    below 0. *)
Definition risen_from (D W : Z) (below : Z -> Z) (x v : Z) : Prop :=
  exists c dec, x - 1 <= c <= x + 1 /\ 0 <= c < W /\ 0 <= dec <= D /\
                v = Z.max 0 (below c - dec).

(** Rows 0 .. k-1 of a grid of width [W] hold no heat. *)
Definition dark_above (W k : Z) (s : Fire) : Prop :=
  forall i, 0 <= i < k * W -> load s i = 0.

(** Everything [render] and its helpers have produced so far: the
    bytes given to [write(2)], then the bytes waiting in [out_buf]. *)
Definition emitted (o : Terminal.Output) : list Ascii.ascii :=
  Terminal.written o
    ++ take (Z.to_nat (Terminal.out_buf_len o)) (Terminal.out_buf o).

(** [out_buf] has its declared size and [out_buf_len] is a length in it. *)
Definition buffer_ok (o : Terminal.Output) : Prop :=
  Z.of_nat (length (Terminal.out_buf o)) = Terminal.OUT_BUF_SIZE /\
  0 <= Terminal.out_buf_len o < Terminal.OUT_BUF_SIZE.

(** The palette tables hold [uint8_t] values. *)
Definition display_ok (d : Terminal.Display) : Prop :=
  Forall (fun c => heat_ok (Term.r c) /\ heat_ok (Term.g c) /\ heat_ok (Term.b c))
         (Terminal.palette_rgb d) /\
  Forall heat_ok (Terminal.palette_256 d).

(** The text of one frame: cursor home, one coloured blank per cell of
    rows 0 .. height-2 in row-major order, colour reset. *)
Definition frame_text (d : Terminal.Display) (t : Term.State) : list Ascii.ascii :=
  String.list_ascii_of_string (String Terminal.ESC "[H")
  ++ concat (map (fun i => String.list_ascii_of_string
                             (Terminal.pixel_text d (load (Term.fire t) i)))
                 (seqZ 0 ((Term.height t - 1) * Term.width t)))
  ++ String.list_ascii_of_string (String Terminal.ESC "[0m").

(** A turn of the loop of [main] whose window has cells, whose cell
    count fits an [int], and whose heat buffer [calloc] can provide. *)
Definition turn_fits (e : Terminal.Turn) : Prop :=
  0 < Terminal.ws_col e /\ 0 < Terminal.ws_row e /\
  Terminal.ws_col e * Terminal.ws_row e <= INT_MAX /\
  Terminal.ws_col e * Terminal.ws_row e <= Terminal.fire_room e.

(** The heat buffer of fire.c has [width * height] cells. *)
Definition grid_fits (t : Term.State) : Prop :=
  Z.of_nat (length (fire_buffer (Term.fire t))) = Term.width t * Term.height t /\
  Forall heat_ok (fire_buffer (Term.fire t)).

(** * Verification *)

(** ** Loops *)

Section ForLoop.
Context {A : Type}.
Implicit Types (body : Z -> A -> A) (a : A).

Lemma for_loop_nil lo hi body a : hi <= lo -> for_loop lo hi body a = a.
Proof.
  intros Hle. unfold for_loop.
  replace (Z.to_nat (hi - lo)) with O by lia. reflexivity.
Qed.

Lemma for_loop_first lo hi body a :
  lo < hi -> for_loop lo hi body a = for_loop (lo + 1) hi body (body lo a).
Proof.
  intros Hlt. unfold for_loop.
  replace (Z.to_nat (hi - lo)) with (S (Z.to_nat (hi - (lo + 1)))) by lia.
  reflexivity.
Qed.

Lemma for_count_snoc n lo body a :
  for_count (S n) lo body a = body (lo + Z.of_nat n) (for_count n lo body a).
Proof.
  revert lo a. induction n as [|n IH]; intros lo a.
  - simpl. f_equal. lia.
  - change (for_count (S (S n)) lo body a)
      with (for_count (S n) (lo + 1) body (body lo a)).
    rewrite IH. simpl. f_equal. lia.
Qed.

Lemma for_loop_last lo hi body a :
  lo <= hi -> for_loop lo (hi + 1) body a = body hi (for_loop lo hi body a).
Proof.
  intros Hle. unfold for_loop.
  replace (Z.to_nat (hi + 1 - lo)) with (S (Z.to_nat (hi - lo))) by lia.
  rewrite for_count_snoc. f_equal. lia.
Qed.

(** Invariant rule: [P i a] says that [a] is a state in which the
    loop may stand just before iteration [i]. *)
Lemma for_loop_invariant (P : Z -> A -> Prop) lo hi body a :
  lo <= hi ->
  P lo a ->
  (forall i a', lo <= i < hi -> P i a' -> P (i + 1) (body i a')) ->
  P hi (for_loop lo hi body a).
Proof.
  intros Hle H0 Hstep.
  assert (Hn : forall n, lo + Z.of_nat n <= hi ->
                         P (lo + Z.of_nat n) (for_count n lo body a)).
  { induction n as [|n IH]; intros Hb.
    - simpl. replace (lo + Z.of_nat 0) with lo by lia. exact H0.
    - rewrite for_count_snoc.
      replace (lo + Z.of_nat (S n)) with (lo + Z.of_nat n + 1) by lia.
      apply Hstep; [lia | apply IH; lia]. }
  unfold for_loop. specialize (Hn (Z.to_nat (hi - lo))).
  replace (lo + Z.of_nat (Z.to_nat (hi - lo))) with hi in Hn by lia.
  apply Hn. lia.
Qed.

Lemma for_loop_split lo mid hi body a :
  lo <= mid <= hi ->
  for_loop lo hi body a = for_loop mid hi body (for_loop lo mid body a).
Proof.
  intros [Hlm Hmh].
  apply (for_loop_invariant
           (fun i a' => for_loop lo hi body a = for_loop i hi body a') lo mid body a);
    [exact Hlm | reflexivity |].
  intros i a' Hi ->. apply for_loop_first. lia.
Qed.

Lemma for_loop_ext lo hi body body' a :
  (forall i a', lo <= i < hi -> body i a' = body' i a') ->
  for_loop lo hi body a = for_loop lo hi body' a.
Proof.
  intros Hext. destruct (Z_le_gt_dec lo hi) as [Hle|Hgt].
  - apply (for_loop_invariant
             (fun i a' => for_loop lo i body a = a') lo hi body' a);
      [exact Hle | apply for_loop_nil; lia |].
    intros i a' Hi <-. rewrite for_loop_last by lia. apply Hext. exact Hi.
  - rewrite !for_loop_nil by lia. reflexivity.
Qed.

(** Two bodies that agree on the states the first loop goes through
    run the same loop. *)
Lemma for_loop_ext_on (P : Z -> A -> Prop) lo hi body body' a :
  lo <= hi ->
  P lo a ->
  (forall i a', lo <= i < hi -> P i a' ->
     body i a' = body' i a' /\ P (i + 1) (body i a')) ->
  for_loop lo hi body a = for_loop lo hi body' a.
Proof.
  intros Hle H0 Hstep.
  apply (for_loop_invariant
           (fun i a' => P i a' /\ a' = for_loop lo i body' a) lo hi body a);
    [exact Hle | split; [exact H0 | symmetry; apply for_loop_nil; lia] |].
  intros i a' Hi [HP ->]. destruct (Hstep i _ Hi HP) as [Heq HP'].
  split; [exact HP'|].
  rewrite for_loop_last by lia. exact Heq.
Qed.
End ForLoop.

(** ** The palette *)

Lemma below_256 (P : Z -> Prop) `{!forall i, Decision (P i)} :
  bool_decide (Forall P (seqZ 0 256)) = true -> forall i, 0 <= i < 256 -> P i.
Proof.
  intros Hb i Hi. apply bool_decide_eq_true in Hb.
  rewrite Forall_seqZ in Hb. apply Hb. lia.
Qed.

Lemma gfx_ramp_spec i :
  0 <= i < 256 ->
  Gfx.channels (Gfx.argb (Gfx.ramp i)) = spec_ramp i /\ Gfx.alpha (Gfx.argb (Gfx.ramp i)) = 255.
Proof.
  revert i.
  apply (below_256 (fun i => Gfx.channels (Gfx.argb (Gfx.ramp i)) = spec_ramp i /\
                             Gfx.alpha (Gfx.argb (Gfx.ramp i)) = 255)).
  vm_compute. reflexivity.
Qed.

Lemma term_ramp_spec i :
  0 <= i < 256 ->
  (Term.r (Term.ramp i), Term.g (Term.ramp i), Term.b (Term.ramp i)) = spec_ramp i.
Proof.
  intros Hi. unfold Term.ramp, spec_ramp, to_u8. simpl.
  repeat case_match; simpl; rewrite ?Z.mod_small by lia; reflexivity.
Qed.

(** Filling a table entry by entry: the shape of both [init_palette]. *)
Lemma fill_spec {B : Type} (f : Z -> B) (n : Z) (tbl : list B) :
  0 <= n <= Z.of_nat (length tbl) ->
  let tbl' := for_loop 0 n (fun i t => <[Z.to_nat i := f i]> t) tbl in
  length tbl' = length tbl /\
  (forall i, 0 <= i < n -> tbl' !! Z.to_nat i = Some (f i)) /\
  (forall k, n <= Z.of_nat k -> tbl' !! k = tbl !! k).
Proof.
  intros Hn tbl'. subst tbl'.
  apply (for_loop_invariant
           (fun m t => length t = length tbl /\
                       (forall i, 0 <= i < m -> t !! Z.to_nat i = Some (f i)) /\
                       (forall k, m <= Z.of_nat k -> t !! k = tbl !! k))).
  - lia.
  - split; [reflexivity|]. split; [intros; lia | auto].
  - intros m t Hm (Hlen & Hlow & Hhigh). split; [|split].
    + rewrite length_insert. exact Hlen.
    + intros i Hi. destruct (decide (i = m)) as [->|Hne].
      * apply list_lookup_insert_eq. lia.
      * rewrite list_lookup_insert_ne by lia. apply Hlow. lia.
    + intros k Hk. rewrite list_lookup_insert_ne by lia. apply Hhigh. lia.
Qed.

Lemma gfx_palette_lookup (palette : list Z) i :
  length palette = 256%nat -> 0 <= i < 256 ->
  Gfx.init_palette palette !! Z.to_nat i = Some (Gfx.argb (Gfx.ramp i)).
Proof.
  intros Hlen Hi. unfold Gfx.init_palette.
  apply (fill_spec (fun i => Gfx.argb (Gfx.ramp i)) 256 palette); lia.
Qed.

Lemma term_palette_fst (pals : list Term.ColorRGB * list Z) :
  fst (Term.init_palette pals)
  = for_loop 0 256 (fun i t => <[Z.to_nat i := Term.ramp i]> t) (fst pals).
Proof.
  unfold Term.init_palette.
  apply (for_loop_invariant
           (fun m p => fst p
                       = for_loop 0 m (fun i t => <[Z.to_nat i := Term.ramp i]> t) (fst pals)));
    [lia | reflexivity |].
  intros m p Hm Hp. rewrite for_loop_last by lia. simpl. rewrite Hp. reflexivity.
Qed.

Lemma term_palette_lookup (pals : list Term.ColorRGB * list Z) i :
  length (fst pals) = 256%nat -> 0 <= i < 256 ->
  fst (Term.init_palette pals) !! Z.to_nat i = Some (Term.ramp i).
Proof.
  intros Hlen Hi. rewrite term_palette_fst.
  apply (fill_spec Term.ramp 256 (fst pals)); lia.
Qed.

Lemma gfx_color_spec (palette : list Z) i :
  length palette = 256%nat -> 0 <= i < 256 ->
  gfx_color (Gfx.init_palette palette) i = Some (spec_ramp i).
Proof.
  intros Hlen Hi. unfold gfx_color. rewrite gfx_palette_lookup by assumption.
  simpl. f_equal. apply gfx_ramp_spec. exact Hi.
Qed.

Lemma term_color_spec (pals : list Term.ColorRGB * list Z) i :
  length (fst pals) = 256%nat -> 0 <= i < 256 ->
  term_color (fst (Term.init_palette pals)) i = Some (spec_ramp i).
Proof.
  intros Hlen Hi. unfold term_color. rewrite term_palette_lookup by assumption.
  simpl. f_equal. apply term_ramp_spec. exact Hi.
Qed.

(** C8. [init_palette] leaves a palette of exactly 256 entries, each
    fixed by its index alone (whatever the arrays held before): entry
    [i] is the colour of the four linear ramps R = i*4 on [0,64),
    G = (i-64)*4 on [64,128), B = (i-128)*4 on [128,192), white on
    [192,256); in particular entry 0 is (0,0,0), entry 64 is (255,0,0),
    entry 128 is (255,255,0) and entry 255 is (255,255,255).  This holds
    for the packed palette of fire-gfx.c and fire-cube.c and for the
    [palette_rgb] of fire.c. *)
Theorem palette_boundary_values (palette : list Z) (pals : list Term.ColorRGB * list Z) :
  length palette = 256%nat ->
  length (fst pals) = 256%nat ->
  let gp := Gfx.init_palette palette in
  let tp := fst (Term.init_palette pals) in
  (length gp = 256%nat /\ length tp = 256%nat) /\
  (forall i, 0 <= i < 256 ->
     gfx_color gp i = Some (spec_ramp i) /\ term_color tp i = Some (spec_ramp i)) /\
  (gfx_color gp 0 = Some (0, 0, 0) /\ term_color tp 0 = Some (0, 0, 0)) /\
  (gfx_color gp 64 = Some (255, 0, 0) /\ term_color tp 64 = Some (255, 0, 0)) /\
  (gfx_color gp 128 = Some (255, 255, 0) /\ term_color tp 128 = Some (255, 255, 0)) /\
  (gfx_color gp 255 = Some (255, 255, 255) /\ term_color tp 255 = Some (255, 255, 255)).
Proof.
  intros Hg Ht gp tp. subst gp tp.
  assert (Hall : forall i, 0 <= i < 256 ->
            gfx_color (Gfx.init_palette palette) i = Some (spec_ramp i) /\
            term_color (fst (Term.init_palette pals)) i = Some (spec_ramp i)).
  { intros i Hi. split; [apply gfx_color_spec | apply term_color_spec]; assumption. }
  split; [split|].
  - unfold Gfx.init_palette.
    rewrite (proj1 (fill_spec (fun i => Gfx.argb (Gfx.ramp i)) 256 palette ltac:(lia))).
    exact Hg.
  - rewrite term_palette_fst.
    rewrite (proj1 (fill_spec Term.ramp 256 (fst pals) ltac:(lia))). exact Ht.
  - split; [exact Hall|].
    repeat split; apply Hall; lia.
Qed.

Lemma palette_boundary_values_witness :
  (length palette_at_start = 256%nat /\ length (fst palettes_at_start) = 256%nat) /\
  gfx_color (Gfx.init_palette palette_at_start) 64 = Some (255, 0, 0) /\
  term_color (fst (Term.init_palette palettes_at_start)) 128 = Some (255, 255, 0).
Proof.
  assert (Hg : length palette_at_start = 256%nat) by reflexivity.
  assert (Ht : length (fst palettes_at_start) = 256%nat) by reflexivity.
  split; [split; assumption|].
  pose proof (palette_boundary_values palette_at_start palettes_at_start Hg Ht) as H.
  cbv zeta in H.
  destruct H as (_ & _ & _ & [H64 _] & [_ H128] & _).
  split; [exact H64 | exact H128].
Defined.

Lemma spec_ramp_brightness i1 i2 :
  0 <= i1 -> i1 < i2 -> i2 <= 255 ->
  brightness (spec_ramp i1) <= brightness (spec_ramp i2).
Proof.
  intros H0 H12 H2. unfold brightness, spec_ramp.
  repeat case_match; simplify_eq; lia.
Qed.

(** C9. Palette brightness is monotone: for indices [i1 < i2] in
    [0, 255] the palette of every program has an entry [i1] and an
    entry [i2], and the sum R+G+B of entry [i1] is at most that of
    entry [i2]. *)
Theorem palette_monotonic_brightness
    (palette : list Z) (pals : list Term.ColorRGB * list Z) (i1 i2 : Z) :
  length palette = 256%nat ->
  length (fst pals) = 256%nat ->
  0 <= i1 -> i1 < i2 -> i2 <= 255 ->
  (exists c1 c2,
     gfx_color (Gfx.init_palette palette) i1 = Some c1 /\
     gfx_color (Gfx.init_palette palette) i2 = Some c2 /\
     brightness c1 <= brightness c2) /\
  (exists c1 c2,
     term_color (fst (Term.init_palette pals)) i1 = Some c1 /\
     term_color (fst (Term.init_palette pals)) i2 = Some c2 /\
     brightness c1 <= brightness c2).
Proof.
  intros Hg Ht H0 H12 H2.
  pose proof (spec_ramp_brightness i1 i2 H0 H12 H2) as Hle.
  split; exists (spec_ramp i1), (spec_ramp i2).
  - rewrite !gfx_color_spec by (assumption || lia).
    split; [reflexivity|]. split; [reflexivity | exact Hle].
  - rewrite !term_color_spec by (assumption || lia).
    split; [reflexivity|]. split; [reflexivity | exact Hle].
Qed.

Lemma palette_monotonic_brightness_witness :
  (length palette_at_start = 256%nat /\ length (fst palettes_at_start) = 256%nat /\
   0 <= 63 /\ 63 < 64 /\ 64 <= 255) /\
  (gfx_color (Gfx.init_palette palette_at_start) 63 = Some (252, 0, 0) /\
   gfx_color (Gfx.init_palette palette_at_start) 64 = Some (255, 0, 0) /\
   brightness (252, 0, 0) <= brightness (255, 0, 0)) /\
  (term_color (fst (Term.init_palette palettes_at_start)) 63 = Some (252, 0, 0) /\
   term_color (fst (Term.init_palette palettes_at_start)) 64 = Some (255, 0, 0) /\
   brightness (252, 0, 0) <= brightness (255, 0, 0)).
Proof.
  assert (Hg : length palette_at_start = 256%nat) by reflexivity.
  assert (Ht : length (fst palettes_at_start) = 256%nat) by reflexivity.
  split; [repeat split; (assumption || lia)|].
  destruct (palette_monotonic_brightness palette_at_start palettes_at_start 63 64 Hg Ht
              ltac:(lia) ltac:(lia) ltac:(lia))
    as [(g1 & g2 & Hg1 & Hg2 & Hgle) (t1 & t2 & Ht1 & Ht2 & Htle)].
  assert (Eg1 : gfx_color (Gfx.init_palette palette_at_start) 63 = Some (252, 0, 0))
    by (vm_compute; reflexivity).
  assert (Eg2 : gfx_color (Gfx.init_palette palette_at_start) 64 = Some (255, 0, 0))
    by (vm_compute; reflexivity).
  assert (Et1 : term_color (fst (Term.init_palette palettes_at_start)) 63
                = Some (252, 0, 0)) by (vm_compute; reflexivity).
  assert (Et2 : term_color (fst (Term.init_palette palettes_at_start)) 64
                = Some (255, 0, 0)) by (vm_compute; reflexivity).
  rewrite Eg1 in Hg1. rewrite Eg2 in Hg2. rewrite Et1 in Ht1. rewrite Et2 in Ht2.
  injection Hg1 as <-. injection Hg2 as <-. injection Ht1 as <-. injection Ht2 as <-.
  split; [split; [exact Eg1 | split; [exact Eg2 | exact Hgle]]
         | split; [exact Et1 | split; [exact Et2 | exact Htle]]].
Defined.

(** ** Buffers and stores *)

Lemma to_u8_ok v : heat_ok (to_u8 v).
Proof. unfold heat_ok, to_u8. pose proof (Z.mod_pos_bound v 256). lia. Qed.

Lemma to_u8_small v : heat_ok v -> to_u8 v = v.
Proof. unfold heat_ok, to_u8. intros Hv. apply Z.mod_small. lia. Qed.

Lemma c_rem_bounds (n : N) (m : Z) : 0 < m -> 0 <= c_rem (Z.of_N n) m < m.
Proof.
  intros Hm. unfold c_rem. rewrite Z.rem_mod_nonneg by lia.
  apply Z.mod_pos_bound. exact Hm.
Qed.

Lemma draw_rem_bounds s k m : 0 < m -> 0 <= c_rem (draw s k) m < m.
Proof. apply c_rem_bounds. Qed.

Lemma length_poke buf i v : length (poke buf i v) = length buf.
Proof. unfold poke. case_match; [reflexivity | apply length_insert]. Qed.

Lemma peek_poke_ne buf i j v : i <> j -> peek (poke buf i v) j = peek buf j.
Proof.
  intros Hne. unfold peek, poke.
  destruct (j <? 0) eqn:Hj; [reflexivity|].
  destruct (i <? 0) eqn:Hi; [reflexivity|].
  rewrite list_lookup_insert_ne by lia. reflexivity.
Qed.

Lemma peek_poke_eq buf i v :
  0 <= i < Z.of_nat (length buf) -> peek (poke buf i v) i = to_u8 v.
Proof.
  intros Hi. unfold peek, poke.
  replace (i <? 0) with false by lia.
  rewrite list_lookup_insert_eq by lia. reflexivity.
Qed.

Lemma poke_ok buf i v : Forall heat_ok buf -> Forall heat_ok (poke buf i v).
Proof.
  intros Hok. unfold poke. case_match; [exact Hok|].
  apply Forall_insert; [exact Hok | apply to_u8_ok].
Qed.

Lemma peek_ok buf i : Forall heat_ok buf -> heat_ok (peek buf i).
Proof.
  intros Hok. unfold peek. case_match; [unfold heat_ok; lia|].
  destruct (buf !! Z.to_nat i) as [v|] eqn:Hv; simpl.
  - exact (Forall_lookup_1 _ _ _ _ Hok Hv).
  - unfold heat_ok; lia.
Qed.

Lemma length_apply_write w buf : length (apply_write w buf) = length buf.
Proof. destruct w as [[d v]|]; [apply length_poke | reflexivity]. Qed.

Lemma apply_write_ok w buf : Forall heat_ok buf -> Forall heat_ok (apply_write w buf).
Proof. destruct w as [[d v]|]; [apply poke_ok | trivial]. Qed.

Lemma peek_apply_write_ne w buf j :
  (forall d v, w = Some (d, v) -> d <> j) ->
  peek (apply_write w buf) j = peek buf j.
Proof.
  intros Hne. destruct w as [[d v]|]; [|reflexivity].
  apply peek_poke_ne. exact (Hne d v eq_refl).
Qed.

(** ** The seed loop *)

Lemma seed_cell_buffer lr x s :
  fire_buffer (seed_cell lr x s) = apply_write (seed_write lr x s) (fire_buffer s).
Proof.
  unfold seed_cell, seed_write, rand, draw, store, load. simpl.
  rewrite !Nat.add_0_r, Nat.add_1_r.
  repeat case_match; reflexivity.
Qed.

Lemma seed_cell_seq lr x s : rand_seq (seed_cell lr x s) = rand_seq s.
Proof.
  unfold seed_cell, rand, store. simpl. repeat case_match; reflexivity.
Qed.

Lemma seed_write_at lr x s d v : seed_write lr x s = Some (d, v) -> d = lr + x.
Proof.
  unfold seed_write. repeat case_match; intros [=]; congruence.
Qed.

Lemma seed_write_ok lr x s d v :
  Forall heat_ok (fire_buffer s) -> seed_write lr x s = Some (d, v) -> heat_ok v.
Proof.
  intros Hok. unfold seed_write.
  pose proof (draw_rem_bounds s 1 50 ltac:(lia)) as Hr.
  pose proof (peek_ok (fire_buffer s) (lr + x) Hok) as Hp.
  unfold load, heat_ok in *.
  repeat case_match; intros [=]; subst; lia.
Qed.

Lemma seed_cell_load_ne lr x s i :
  i <> lr + x -> load (seed_cell lr x s) i = load s i.
Proof.
  intros Hne. unfold load. rewrite seed_cell_buffer.
  apply peek_apply_write_ne. intros d v Hw.
  apply seed_write_at in Hw. congruence.
Qed.

Lemma seed_until_facts W H x s :
  0 <= x ->
  length (fire_buffer (seed_until W H x s)) = length (fire_buffer s) /\
  rand_seq (seed_until W H x s) = rand_seq s /\
  (Forall heat_ok (fire_buffer s) -> Forall heat_ok (fire_buffer (seed_until W H x s))) /\
  (forall i, i < (H - 1) * W \/ (H - 1) * W + x <= i ->
             load (seed_until W H x s) i = load s i).
Proof.
  intros Hx. unfold seed_until.
  apply (for_loop_invariant
           (fun c s' =>
              length (fire_buffer s') = length (fire_buffer s) /\
              rand_seq s' = rand_seq s /\
              (Forall heat_ok (fire_buffer s) -> Forall heat_ok (fire_buffer s')) /\
              (forall i, i < (H - 1) * W \/ (H - 1) * W + c <= i -> load s' i = load s i)));
    [exact Hx | auto |].
  intros c s' Hc (Hlen & Hseq & Hok & Hfar). repeat split.
  - rewrite seed_cell_buffer, length_apply_write. exact Hlen.
  - rewrite seed_cell_seq. exact Hseq.
  - intros Hs. rewrite seed_cell_buffer. apply apply_write_ok. auto.
  - intros i Hi. rewrite seed_cell_load_ne by lia. apply Hfar. lia.
Qed.

Lemma seed_row_until W H s : seed_row W H s = seed_until W H W s.
Proof. reflexivity. Qed.

(** The seed loop leaves column [x] of the bottom row as [seed_cell]
    made it when the loop stood at [x]. *)
Lemma seed_row_load W H x s :
  0 <= x < W ->
  load (seed_row W H s) ((H - 1) * W + x)
  = load (seed_cell ((H - 1) * W) x (seed_until W H x s)) ((H - 1) * W + x).
Proof.
  intros Hx. unfold seed_row, seed_until.
  rewrite (for_loop_split 0 (x + 1) W) by lia.
  rewrite (for_loop_last 0 x) by lia.
  apply (for_loop_invariant
           (fun c s' => x + 1 <= c ->
              load s' ((H - 1) * W + x)
              = load (seed_cell ((H - 1) * W) x
                        (for_loop 0 x (seed_cell ((H - 1) * W)) s)) ((H - 1) * W + x)));
    [lia | reflexivity | | lia].
  intros c s' Hc IH _. rewrite seed_cell_load_ne by lia. apply IH. lia.
Qed.

(** ** The propagation sweep, for any loop body with a local footprint

    Both loop bodies ([Gfx.propagate_cell], [Term.propagate_cell])
    perform at most one store, inside row [y] and at most one column
    away from [x], and store 0 at (y, x) when the cell below holds 0.
    The facts about the nested loops only depend on that. *)

Section Sweep.
Variable W : Z.
Variable cell : Z -> Z -> Fire -> Fire.
Variable write : Z -> Z -> Fire -> option (Z * Z).

Hypothesis body : local_body W cell write.

Lemma W_pos : 0 < W.
Proof. apply body. Qed.

Lemma cell_buffer y x s :
  fire_buffer (cell y x s) = apply_write (write y x s) (fire_buffer s).
Proof. apply body. Qed.

Lemma cell_seq y x s : rand_seq (cell y x s) = rand_seq s.
Proof. apply body. Qed.

Lemma write_near y x s d v :
  0 <= x < W -> write y x s = Some (d, v) ->
  y * W <= d < (y + 1) * W /\ y * W + x - 1 <= d <= y * W + x + 1.
Proof. apply body. Qed.

Lemma write_zero y x s :
  load s ((y + 1) * W + x) = 0 -> write y x s = Some (y * W + x, 0).
Proof. apply body. Qed.

Let row (y : Z) : Fire -> Fire := for_loop 0 W (cell y).

Lemma cell_load_ne y x s i :
  (forall d v, write y x s = Some (d, v) -> d <> i) ->
  load (cell y x s) i = load s i.
Proof.
  intros Hne. unfold load. rewrite cell_buffer.
  apply peek_apply_write_ne. exact Hne.
Qed.

Lemma cell_load_far y x s i :
  0 <= x < W ->
  i < y * W \/ (y + 1) * W <= i \/ i < y * W + x - 1 \/ y * W + x + 1 < i ->
  load (cell y x s) i = load s i.
Proof.
  intros Hx Hfar. apply cell_load_ne. intros d v Hw.
  destruct (write_near y x s d v Hx Hw). lia.
Qed.

Lemma cell_length y x s :
  length (fire_buffer (cell y x s)) = length (fire_buffer s).
Proof. rewrite cell_buffer. apply length_apply_write. Qed.

Lemma cell_ok y x s :
  Forall heat_ok (fire_buffer s) -> Forall heat_ok (fire_buffer (cell y x s)).
Proof. rewrite cell_buffer. apply apply_write_ok. Qed.

(** Columns [a .. b-1] of row [y]. *)
Lemma cols_facts y a b s :
  0 <= a <= b -> b <= W ->
  length (fire_buffer (for_loop a b (cell y) s)) = length (fire_buffer s) /\
  rand_seq (for_loop a b (cell y) s) = rand_seq s /\
  (Forall heat_ok (fire_buffer s) ->
   Forall heat_ok (fire_buffer (for_loop a b (cell y) s))) /\
  (forall i, i < y * W \/ (y + 1) * W <= i \/ i < y * W + a - 1 \/ y * W + b < i ->
             load (for_loop a b (cell y) s) i = load s i).
Proof.
  intros Hab Hb.
  apply (for_loop_invariant
           (fun c s' =>
              length (fire_buffer s') = length (fire_buffer s) /\
              rand_seq s' = rand_seq s /\
              (Forall heat_ok (fire_buffer s) -> Forall heat_ok (fire_buffer s')) /\
              (forall i, i < y * W \/ (y + 1) * W <= i \/
                         i < y * W + a - 1 \/ y * W + c < i ->
                         load s' i = load s i)));
    [lia | auto |].
  intros c s' Hc (Hlen & Hseq & Hok & Hfar). repeat split.
  - rewrite cell_length. exact Hlen.
  - rewrite cell_seq. exact Hseq.
  - intros Hs. apply cell_ok. auto.
  - intros i Hi. rewrite cell_load_far by lia. apply Hfar. lia.
Qed.

(** Rows [a .. b-1]. *)
Lemma rows_facts a b s :
  0 <= a <= b ->
  length (fire_buffer (for_loop a b row s)) = length (fire_buffer s) /\
  rand_seq (for_loop a b row s) = rand_seq s /\
  (Forall heat_ok (fire_buffer s) ->
   Forall heat_ok (fire_buffer (for_loop a b row s))) /\
  (forall i, i < a * W \/ b * W <= i -> load (for_loop a b row s) i = load s i).
Proof.
  pose proof W_pos as HW.
  intros Hab.
  apply (for_loop_invariant
           (fun r s' =>
              length (fire_buffer s') = length (fire_buffer s) /\
              rand_seq s' = rand_seq s /\
              (Forall heat_ok (fire_buffer s) -> Forall heat_ok (fire_buffer s')) /\
              (forall i, i < a * W \/ r * W <= i -> load s' i = load s i)));
    [lia | auto |].
  intros r s' Hr (Hlen & Hseq & Hok & Hfar).
  destruct (cols_facts r 0 W s' ltac:(lia) ltac:(lia)) as (Hl & Hq & Ho & Hf).
  unfold row. repeat split.
  - rewrite Hl. exact Hlen.
  - rewrite Hq. exact Hseq.
  - intros Hs. apply Ho. auto.
  - intros i Hi. rewrite Hf by nia. apply Hfar. nia.
Qed.

Lemma sweep_until_facts y x s :
  0 <= y -> 0 <= x <= W ->
  length (fire_buffer (sweep_until W cell y x s)) = length (fire_buffer s) /\
  rand_seq (sweep_until W cell y x s) = rand_seq s /\
  (Forall heat_ok (fire_buffer s) ->
   Forall heat_ok (fire_buffer (sweep_until W cell y x s))) /\
  (forall i, (y + 1) * W <= i \/ y * W + x < i ->
             load (sweep_until W cell y x s) i = load s i).
Proof.
  pose proof W_pos as HW.
  intros Hy Hx. unfold sweep_until.
  destruct (rows_facts 0 y s ltac:(lia)) as (Hl & Hq & Ho & Hf).
  fold row.
  destruct (cols_facts y 0 x (for_loop 0 y row s) ltac:(lia) ltac:(lia))
    as (Hl' & Hq' & Ho' & Hf').
  repeat split.
  - rewrite Hl'. exact Hl.
  - rewrite Hq'. exact Hq.
  - intros Hs. auto.
  - intros i Hi. rewrite Hf' by nia. apply Hf. nia.
Qed.

(** The sweep stands at (y, x+1) after the body ran at (y, x), and at
    (y+1, 0) after row y. *)
Lemma sweep_until_step y x s :
  0 <= x -> sweep_until W cell y (x + 1) s = cell y x (sweep_until W cell y x s).
Proof. intros Hx. unfold sweep_until. apply for_loop_last. exact Hx. Qed.

Lemma sweep_until_row y s :
  0 <= y -> sweep_until W cell (y + 1) 0 s = sweep_until W cell y W s.
Proof.
  pose proof W_pos as HW.
  intros Hy. unfold sweep_until.
  rewrite (for_loop_nil 0 0) by lia.
  rewrite (for_loop_last 0 y) by lia. reflexivity.
Qed.

(** The whole sweep over rows [0 .. n-1], cut at cell (y, x). *)
Lemma sweep_cut n y x s :
  0 <= y < n -> 0 <= x <= W ->
  for_loop 0 n row s
  = for_loop (y + 1) n row (for_loop x W (cell y) (sweep_until W cell y x s)).
Proof.
  pose proof W_pos as HW.
  intros Hy Hx. unfold sweep_until. fold row.
  rewrite (for_loop_split 0 (y + 1) n) by lia.
  rewrite (for_loop_last 0 y) by lia.
  unfold row at 2. rewrite (for_loop_split 0 x W) by lia. reflexivity.
Qed.

(** What the cell below held when the sweep began is what the body
    reads at (y, x). *)
Lemma sweep_reads_below y x x' s :
  0 <= y -> 0 <= x < W -> 0 <= x' ->
  load (sweep_until W cell y x s) ((y + 1) * W + x') = load s ((y + 1) * W + x').
Proof.
  pose proof W_pos as HW.
  intros Hy Hx Hx'.
  apply (sweep_until_facts y x s); lia.
Qed.

(** A cell that no store of row [y] targets keeps its value. *)
Lemma sweep_stale n y x s :
  0 <= y < n -> 0 <= x < W ->
  (forall c d v, x - 1 <= c <= x + 1 -> 0 <= c < W ->
     write y c (sweep_until W cell y c s) = Some (d, v) -> d <> y * W + x) ->
  load (for_loop 0 n row s) (y * W + x) = load s (y * W + x).
Proof.
  pose proof W_pos as HW.
  intros Hy Hx Hmiss.
  rewrite (sweep_cut n y 0) by lia.
  destruct (rows_facts (y + 1) n
              (for_loop 0 W (cell y) (sweep_until W cell y 0 s)) ltac:(lia))
    as (_ & _ & _ & Hf).
  rewrite Hf by lia. clear Hf.
  transitivity (load (sweep_until W cell y 0 s) (y * W + x)).
  - apply (for_loop_invariant
             (fun c s' => s' = sweep_until W cell y c s /\
                          load s' (y * W + x)
                          = load (sweep_until W cell y 0 s) (y * W + x)));
      [lia | auto |].
    intros c s' Hc [-> IH]. split.
    + symmetry. apply sweep_until_step. lia.
    + rewrite <- IH. apply cell_load_ne. intros d v Hw.
      destruct (decide (x - 1 <= c <= x + 1)) as [Hin|Hout].
      * exact (Hmiss c d v Hin Hc Hw).
      * destruct (write_near y c _ d v Hc Hw). lia.
  - unfold sweep_until. rewrite (for_loop_nil 0 0) by lia.
    apply (rows_facts 0 y s); lia.
Qed.

(** A cell whose lower neighbour held 0 when the sweep began, and
    whose lower right neighbour did too (or which is in the last
    column), holds 0 after the sweep. *)
Lemma sweep_zero n y x s :
  0 <= y < n -> 0 <= x < W ->
  (y + 1) * W <= Z.of_nat (length (fire_buffer s)) ->
  load s ((y + 1) * W + x) = 0 ->
  x = W - 1 \/ load s ((y + 1) * W + (x + 1)) = 0 ->
  load (for_loop 0 n row s) (y * W + x) = 0.
Proof.
  pose proof W_pos as HW.
  intros Hy Hx Hlen Hbelow Hright.
  rewrite (sweep_cut n y (x + 1)) by lia.
  destruct (rows_facts (y + 1) n
              (for_loop (x + 1) W (cell y) (sweep_until W cell y (x + 1) s))
              ltac:(lia)) as (_ & _ & _ & Hf).
  rewrite Hf by lia. clear Hf.
  assert (Hat : load (sweep_until W cell y (x + 1) s) (y * W + x) = 0).
  { rewrite sweep_until_step by lia.
    unfold load. rewrite cell_buffer, write_zero.
    - simpl. rewrite peek_poke_eq; [reflexivity|].
      destruct (sweep_until_facts y x s ltac:(lia) ltac:(lia)) as (Hl & _).
      rewrite Hl. nia.
    - rewrite sweep_reads_below by lia. exact Hbelow. }
  destruct (decide (x + 1 = W)) as [Hlast|Hmore].
  - rewrite for_loop_nil by lia. exact Hat.
  - destruct Hright as [?|Hright]; [lia|].
    rewrite for_loop_first by lia.
    destruct (cols_facts y (x + 1 + 1) W
                (cell y (x + 1) (sweep_until W cell y (x + 1) s))
                ltac:(lia) ltac:(lia)) as (_ & _ & _ & Hf).
    rewrite Hf by lia. clear Hf.
    rewrite cell_load_ne; [exact Hat|].
    intros d v Hw. rewrite write_zero in Hw.
    + injection Hw as <- _. lia.
    + rewrite sweep_reads_below by lia. exact Hright.
Qed.
End Sweep.

(** ** The two loop bodies meet the footprint conditions *)

Lemma gfx_cell_buffer W y x s :
  fire_buffer (Gfx.propagate_cell W y x s)
  = apply_write (Gfx.cell_write W y x s) (fire_buffer s).
Proof.
  unfold Gfx.propagate_cell, Gfx.cell_write, rand, draw, store, load. simpl.
  rewrite !Nat.add_0_r, Nat.add_1_r.
  repeat case_match; reflexivity.
Qed.

Lemma gfx_cell_seq W y x s : rand_seq (Gfx.propagate_cell W y x s) = rand_seq s.
Proof.
  unfold Gfx.propagate_cell, rand, store. simpl. repeat case_match; reflexivity.
Qed.

Lemma gfx_write_near W y x s d v :
  0 <= x < W -> Gfx.cell_write W y x s = Some (d, v) ->
  y * W <= d < (y + 1) * W /\ y * W + x - 1 <= d <= y * W + x + 1.
Proof.
  intros Hx. unfold Gfx.cell_write.
  pose proof (draw_rem_bounds s 1 3 ltac:(lia)) as Hr.
  repeat case_match; intros [=]; subst; lia.
Qed.

Lemma gfx_write_zero W y x s :
  load s ((y + 1) * W + x) = 0 -> Gfx.cell_write W y x s = Some (y * W + x, 0).
Proof. intros Hz. unfold Gfx.cell_write. rewrite Hz. reflexivity. Qed.

Lemma gfx_write_ok W y x s d v :
  Forall heat_ok (fire_buffer s) -> Gfx.cell_write W y x s = Some (d, v) -> heat_ok v.
Proof.
  intros Hok. unfold Gfx.cell_write.
  pose proof (draw_rem_bounds s 0 3 ltac:(lia)) as Hr.
  pose proof (peek_ok (fire_buffer s) ((y + 1) * W + x) Hok) as Hp.
  unfold load, heat_ok in *.
  repeat case_match; intros [=]; subst; lia.
Qed.

Lemma term_cell_buffer W y x s :
  fire_buffer (Term.propagate_cell W y x s)
  = apply_write (Term.cell_write W y x s) (fire_buffer s).
Proof.
  unfold Term.propagate_cell, Term.cell_write, rand, draw, store, load. simpl.
  rewrite !Nat.add_0_r, Nat.add_1_r.
  repeat case_match; reflexivity.
Qed.

Lemma term_cell_seq W y x s : rand_seq (Term.propagate_cell W y x s) = rand_seq s.
Proof.
  unfold Term.propagate_cell, rand, store. simpl. repeat case_match; reflexivity.
Qed.

Lemma term_write_near W y x s d v :
  0 <= x < W -> Term.cell_write W y x s = Some (d, v) ->
  y * W <= d < (y + 1) * W /\ y * W + x - 1 <= d <= y * W + x + 1.
Proof.
  intros Hx. unfold Term.cell_write.
  pose proof (draw_rem_bounds s 1 3 ltac:(lia)) as Hr.
  repeat case_match; intros [=]; subst; lia.
Qed.

Lemma term_write_zero W y x s :
  load s ((y + 1) * W + x) = 0 -> Term.cell_write W y x s = Some (y * W + x, 0).
Proof. intros Hz. unfold Term.cell_write. rewrite Hz. reflexivity. Qed.

Lemma term_write_ok W y x s d v :
  Forall heat_ok (fire_buffer s) -> Term.cell_write W y x s = Some (d, v) -> heat_ok v.
Proof.
  intros Hok. unfold Term.cell_write.
  pose proof (draw_rem_bounds s 0 (Term.COOLING_MAX + 1) ltac:(reflexivity)) as Hr.
  pose proof (peek_ok (fire_buffer s) ((y + 1) * W + x) Hok) as Hp.
  unfold load, heat_ok, Term.COOLING_MAX in *.
  repeat case_match; intros [=]; subst; lia.
Qed.

Lemma gfx_local_body W :
  0 < W -> local_body W (Gfx.propagate_cell W) (Gfx.cell_write W).
Proof.
  intros HW. constructor.
  - exact HW.
  - apply gfx_cell_buffer.
  - apply gfx_cell_seq.
  - apply gfx_write_near.
  - apply gfx_write_zero.
Qed.

Lemma term_local_body W :
  0 < W -> local_body W (Term.propagate_cell W) (Term.cell_write W).
Proof.
  intros HW. constructor.
  - exact HW.
  - apply term_cell_buffer.
  - apply term_cell_seq.
  - apply term_write_near.
  - apply term_write_zero.
Qed.

(** ** One call of [update_fire]: the seed loop, then the sweep *)

Lemma seed_row_above W H s i :
  0 <= W -> i < (H - 1) * W -> load (seed_row W H s) i = load s i.
Proof.
  intros HW Hi. rewrite seed_row_until.
  apply (seed_until_facts W H W s HW). lia.
Qed.

Lemma seed_row_well_formed W H s :
  well_formed W H s -> well_formed W H (seed_row W H s).
Proof.
  intros (HW & HH & Hlen & Hok). rewrite seed_row_until.
  destruct (seed_until_facts W H W s ltac:(lia)) as (Hl & _ & Ho & _).
  repeat split; [exact HW | exact HH | rewrite Hl; exact Hlen | auto].
Qed.

Section Update.
Variables W H : Z.
Variable cell : Z -> Z -> Fire -> Fire.
Variable write : Z -> Z -> Fire -> option (Z * Z).
Hypothesis body : local_body W cell write.

Let update (s : Fire) : Fire :=
  for_loop 0 (H - 1) (fun y => for_loop 0 W (cell y)) (seed_row W H s).

Let visit (y x : Z) (s : Fire) : Fire :=
  sweep_until W cell y x (seed_row W H s).

Lemma update_well_formed s : well_formed W H s -> well_formed W H (update s).
Proof.
  intros Hwf. apply seed_row_well_formed in Hwf.
  destruct Hwf as (HW & HH & Hlen & Hok). unfold update.
  destruct (rows_facts W cell write body 0 (H - 1) (seed_row W H s) ltac:(lia))
    as (Hl & _ & Ho & _).
  repeat split; [exact HW | exact HH | rewrite Hl; exact Hlen | auto].
Qed.

Lemma visit_well_formed y x s :
  well_formed W H s -> 0 <= y -> 0 <= x <= W -> well_formed W H (visit y x s).
Proof.
  intros Hwf Hy Hx. apply seed_row_well_formed in Hwf.
  destruct Hwf as (HW & HH & Hlen & Hok). unfold visit.
  destruct (sweep_until_facts W cell write body y x (seed_row W H s) Hy Hx)
    as (Hl & _ & Ho & _).
  repeat split; [exact HW | exact HH | rewrite Hl; exact Hlen | auto].
Qed.

(** The sweep leaves the bottom row as the seed loop made it. *)
Lemma update_bottom s i :
  0 < H -> (H - 1) * W <= i -> load (update s) i = load (seed_row W H s) i.
Proof.
  intros HH Hi. unfold update.
  apply (rows_facts W cell write body 0 (H - 1) (seed_row W H s)); lia.
Qed.

(** The value the body reads below (y, x) is the one the seed loop
    left there: the value from before the call for every row but the
    bottom one, which is read by row [H - 2] only. *)
Lemma update_reads s y x :
  well_formed W H s -> 0 <= y < H - 1 -> 0 <= x < W ->
  load (visit y x s) ((y + 1) * W + x) = load (seed_row W H s) ((y + 1) * W + x) /\
  (y < H - 2 ->
   load (seed_row W H s) ((y + 1) * W + x) = load s ((y + 1) * W + x)) /\
  (y = H - 2 ->
   load (seed_row W H s) ((y + 1) * W + x) = load (update s) ((y + 1) * W + x)).
Proof.
  intros (HW & HH & _) Hy Hx. split; [|split].
  - unfold visit. apply (sweep_reads_below W cell write body); lia.
  - intros Hlow. apply seed_row_above; nia.
  - intros ->. symmetry. apply update_bottom; nia.
Qed.

Lemma update_zero s y x :
  well_formed W H s -> 0 <= y < H - 1 -> 0 <= x < W ->
  load (seed_row W H s) ((y + 1) * W + x) = 0 ->
  x = W - 1 \/ load (seed_row W H s) ((y + 1) * W + (x + 1)) = 0 ->
  load (update s) (y * W + x) = 0.
Proof.
  intros Hwf Hy Hx Hbelow Hright. apply seed_row_well_formed in Hwf.
  destruct Hwf as (HW & HH & Hlen & Hok). unfold update.
  apply (sweep_zero W cell write body); try assumption. nia.
Qed.

Lemma update_stale s y x :
  well_formed W H s -> 0 <= y < H - 1 -> 0 <= x < W ->
  (forall c d v, x - 1 <= c <= x + 1 -> 0 <= c < W ->
     write y c (visit y c s) = Some (d, v) -> d <> y * W + x) ->
  load (update s) (y * W + x) = load s (y * W + x).
Proof.
  intros (HW & HH & _) Hy Hx Hmiss. unfold update.
  rewrite (sweep_stale W cell write body) by assumption.
  apply seed_row_above; nia.
Qed.

(** The bottom row after the call: what [seed_cell] stored when the
    seed loop stood at column [x]. *)
Lemma update_seeded s x :
  well_formed W H s -> 0 <= x < W ->
  load (update s) ((H - 1) * W + x)
  = load (seed_cell ((H - 1) * W) x (seed_until W H x s)) ((H - 1) * W + x).
Proof.
  intros (HW & HH & _) Hx.
  rewrite update_bottom by lia. apply seed_row_load. exact Hx.
Qed.
End Update.

(** ** What one call of [update_fire] does to the grid *)

Ltac concrete_frame :=
  unfold well_formed, heat_ok; simpl;
  repeat split; try lia; repeat (constructor; [lia|]); constructor.

(** C4 as stated fails: in a 1 x 3 grid the body at row 0 reads 100
    from cell (1, 0), the value from before the call.  That cell is
    rewritten later in the same call: it still holds 100 when the sweep
    reaches row 1, and 255 when the call ends. *)
Lemma sweep_reads_updated_row_counterexample :
  (load frame_column 1 = 100 /\
   load (Term.visit 1 3 0 0 frame_column) 1 = 100 /\
   load (Term.visit 1 3 1 0 frame_column) 1 = 100 /\
   load (Term.update_heat 1 3 frame_column) 1 = 255) /\
  (load (Gfx.visit 1 3 0 0 frame_column) 1 = 100 /\
   load (Gfx.visit 1 3 1 0 frame_column) 1 = 100 /\
   load (Gfx.update_heat 1 3 frame_column) 1 = 255).
Proof. vm_compute. repeat split; reflexivity. Qed.

(** C4, amended.  When the sweep reaches cell (y, x), the value it
    reads from the cell directly below is, for every row y <= height-3,
    the value that cell had before the call: row y+1 has not been
    rewritten yet, the sweep running from the top row down.  Only row
    y = height-2 reads values written earlier in the same call, those of
    the bottom row, which the seed loop has just set and which are the
    values the bottom row has after the call. *)
Theorem sweep_reads_previous_frame W H s y x :
  well_formed W H s -> 0 <= y < H - 1 -> 0 <= x < W ->
  let below := (y + 1) * W + x in
  (y < H - 2 ->
   load (Gfx.visit W H y x s) below = load s below /\
   load (Term.visit W H y x s) below = load s below) /\
  (y = H - 2 ->
   load (Gfx.visit W H y x s) below = load (Gfx.update_heat W H s) below /\
   load (Term.visit W H y x s) below = load (Term.update_heat W H s) below).
Proof.
  intros Hwf Hy Hx below. subst below.
  pose proof Hwf as (HW & _).
  destruct (update_reads W H _ _ (gfx_local_body W HW) s y x Hwf Hy Hx)
    as (Hg & Hg1 & Hg2).
  destruct (update_reads W H _ _ (term_local_body W HW) s y x Hwf Hy Hx)
    as (Ht & Ht1 & Ht2).
  split.
  - intros Hlow. split.
    + unfold Gfx.visit. rewrite Hg. auto.
    + unfold Term.visit. rewrite Ht. auto.
  - intros Hlast. split.
    + unfold Gfx.visit. rewrite Hg. exact (Hg2 Hlast).
    + unfold Term.visit. rewrite Ht. exact (Ht2 Hlast).
Qed.

Lemma sweep_reads_previous_frame_witness :
  (well_formed 1 3 frame_column /\ 0 <= 0 < 3 - 1 /\ 0 <= 0 < 1 /\ 0 < 3 - 2) /\
  load (Gfx.visit 1 3 0 0 frame_column) ((0 + 1) * 1 + 0)
  = load frame_column ((0 + 1) * 1 + 0) /\
  load (Term.visit 1 3 0 0 frame_column) ((0 + 1) * 1 + 0)
  = load frame_column ((0 + 1) * 1 + 0).
Proof.
  assert (Hwf : well_formed 1 3 frame_column) by concrete_frame.
  split; [split; [exact Hwf | lia]|].
  apply (sweep_reads_previous_frame 1 3 frame_column 0 0 Hwf); lia.
Defined.

(** C1 as stated fails twice.  In a 2 x 3 grid where cell (1, 0) holds
    0 and cell (1, 1) holds 50, the store for column 1 of row 0 drifts
    left and leaves 50 in cell (0, 0), after column 0 put 0 there.  And
    in a dark 1 x 2 grid the bottom cell sparks during the call, so the
    row above it, which reads the seeded value, ends at 255. *)
Lemma extinguished_reignites_counterexample :
  (load frame_drift_gfx (1 * 2 + 0) = 0 /\
   load (Gfx.update_heat 2 3 frame_drift_gfx) (0 * 2 + 0) = 50) /\
  (load frame_drift_term (1 * 2 + 0) = 0 /\
   load (Term.update_heat 2 3 frame_drift_term) (0 * 2 + 0) = 50) /\
  (load frame_dark (1 * 1 + 0) = 0 /\
   load (Gfx.update_heat 1 2 frame_dark) (0 * 1 + 0) = 255 /\
   load (Term.update_heat 1 2 frame_dark) (0 * 1 + 0) = 255).
Proof. vm_compute. repeat split; reflexivity. Qed.

(** C1, amended.  Let [below c] be the value the sweep finds in cell
    (y+1, c): for y <= height-3 it is the value from before the call,
    for y = height-2 the value the seed loop left in the bottom row.  If
    [below x] is 0, and column x is the last one or [below (x+1)] is 0
    too, then cell (y, x) holds 0 after the call.  (The store for column
    x+1 is the only later store that can land on column x.) *)
Theorem extinguished_stays_extinguished W H s y x :
  well_formed W H s -> 0 <= y < H - 1 -> 0 <= x < W ->
  let below c := load (seed_row W H s) ((y + 1) * W + c) in
  (y < H - 2 -> forall c, 0 <= c < W -> below c = load s ((y + 1) * W + c)) /\
  (below x = 0 -> x = W - 1 \/ below (x + 1) = 0 ->
   load (Gfx.update_heat W H s) (y * W + x) = 0 /\
   load (Term.update_heat W H s) (y * W + x) = 0).
Proof.
  intros Hwf Hy Hx below. subst below. cbv beta.
  pose proof Hwf as (HW & _).
  split.
  - intros Hlow c Hc. apply seed_row_above; nia.
  - intros Hbelow Hright. split.
    + exact (update_zero W H _ _ (gfx_local_body W HW) s y x Hwf Hy Hx Hbelow Hright).
    + exact (update_zero W H _ _ (term_local_body W HW) s y x Hwf Hy Hx Hbelow Hright).
Qed.

Lemma extinguished_stays_extinguished_witness :
  (well_formed 2 3 frame_drift_gfx /\ 0 <= 1 < 3 - 1 /\ 0 <= 0 < 2 /\
   load (seed_row 2 3 frame_drift_gfx) ((1 + 1) * 2 + 0) = 0 /\
   load (seed_row 2 3 frame_drift_gfx) ((1 + 1) * 2 + (0 + 1)) = 0) /\
  load (Gfx.update_heat 2 3 frame_drift_gfx) (1 * 2 + 0) = 0 /\
  load (Term.update_heat 2 3 frame_drift_gfx) (1 * 2 + 0) = 0.
Proof.
  assert (Hwf : well_formed 2 3 frame_drift_gfx) by concrete_frame.
  assert (Hbelow : load (seed_row 2 3 frame_drift_gfx) ((1 + 1) * 2 + 0) = 0)
    by (vm_compute; reflexivity).
  assert (Hright : load (seed_row 2 3 frame_drift_gfx) ((1 + 1) * 2 + (0 + 1)) = 0)
    by (vm_compute; reflexivity).
  split; [split; [exact Hwf | repeat split; (assumption || lia)]|].
  apply (extinguished_stays_extinguished 2 3 frame_drift_gfx 1 0 Hwf);
    [lia | lia | exact Hbelow | right; exact Hright].
Defined.

(** C10.  A cell (y, x) above the bottom row is written during the call
    only by the stores of columns x-1, x and x+1 of row y.  When none of
    these stores lands on column x, the cell holds after the call the
    value it held before: the sweep does not define every cell from the
    row below, and old heat persists. *)
Theorem untargeted_cell_keeps_value W H s y x :
  well_formed W H s -> 0 <= y < H - 1 -> 0 <= x < W ->
  ((forall c d v, x - 1 <= c <= x + 1 -> 0 <= c < W ->
      Gfx.cell_write W y c (Gfx.visit W H y c s) = Some (d, v) -> d <> y * W + x) ->
   load (Gfx.update_heat W H s) (y * W + x) = load s (y * W + x)) /\
  ((forall c d v, x - 1 <= c <= x + 1 -> 0 <= c < W ->
      Term.cell_write W y c (Term.visit W H y c s) = Some (d, v) -> d <> y * W + x) ->
   load (Term.update_heat W H s) (y * W + x) = load s (y * W + x)).
Proof.
  intros Hwf Hy Hx. pose proof Hwf as (HW & _). split; intros Hmiss.
  - exact (update_stale W H _ _ (gfx_local_body W HW) s y x Hwf Hy Hx Hmiss).
  - exact (update_stale W H _ _ (term_local_body W HW) s y x Hwf Hy Hx Hmiss).
Qed.

(** In [frame_stale] the cell below (0, 0) is lit after seeding, no
    store lands on (0, 0), and the old value 7 is still there after the
    call, in every program. *)
Lemma untargeted_cell_keeps_value_witness :
  (well_formed 2 2 frame_stale /\ 0 <= 0 < 2 - 1 /\ 0 <= 0 < 2 /\
   (forall c d v, 0 - 1 <= c <= 0 + 1 -> 0 <= c < 2 ->
      Gfx.cell_write 2 0 c (Gfx.visit 2 2 0 c frame_stale) = Some (d, v) ->
      d <> 0 * 2 + 0) /\
   (forall c d v, 0 - 1 <= c <= 0 + 1 -> 0 <= c < 2 ->
      Term.cell_write 2 0 c (Term.visit 2 2 0 c frame_stale) = Some (d, v) ->
      d <> 0 * 2 + 0)) /\
  (load (Gfx.visit 2 2 0 0 frame_stale) (1 * 2 + 0) = 255 /\
   load (Term.visit 2 2 0 0 frame_stale) (1 * 2 + 0) = 255) /\
  load (Gfx.update_heat 2 2 frame_stale) (0 * 2 + 0) = load frame_stale (0 * 2 + 0) /\
  load (Term.update_heat 2 2 frame_stale) (0 * 2 + 0) = load frame_stale (0 * 2 + 0) /\
  load frame_stale (0 * 2 + 0) = 7.
Proof.
  assert (Hwf : well_formed 2 2 frame_stale) by concrete_frame.
  assert (Hg : forall c d v, 0 - 1 <= c <= 0 + 1 -> 0 <= c < 2 ->
             Gfx.cell_write 2 0 c (Gfx.visit 2 2 0 c frame_stale) = Some (d, v) ->
             d <> 0 * 2 + 0).
  { intros c d v _ Hc Hw.
    assert (Hcases : c = 0 \/ c = 1) by lia.
    destruct Hcases as [-> | ->]; vm_compute in Hw; injection Hw as <- _; lia. }
  assert (Ht : forall c d v, 0 - 1 <= c <= 0 + 1 -> 0 <= c < 2 ->
             Term.cell_write 2 0 c (Term.visit 2 2 0 c frame_stale) = Some (d, v) ->
             d <> 0 * 2 + 0).
  { intros c d v _ Hc Hw.
    assert (Hcases : c = 0 \/ c = 1) by lia.
    destruct Hcases as [-> | ->]; vm_compute in Hw;
      [injection Hw as <- _; lia | discriminate Hw]. }
  split; [split; [exact Hwf | repeat split; (assumption || lia)]|].
  split; [split; vm_compute; reflexivity|].
  destruct (untargeted_cell_keeps_value 2 2 frame_stale 0 0 Hwf
              ltac:(lia) ltac:(lia)) as [Kg Kt].
  split; [exact (Kg Hg)|]. split; [exact (Kt Ht)|].
  vm_compute. reflexivity.
Defined.

Lemma gfx_update_fire_heat W H palette s pixel_buffer :
  fst (Gfx.update_fire W H palette s pixel_buffer) = Gfx.update_heat W H s.
Proof. reflexivity. Qed.

Lemma programs_share_kernel palette s pixel_buffer :
  fst (Gfx.fire_gfx_update_fire palette s pixel_buffer) = Gfx.update_heat 320 200 s /\
  fst (Gfx.fire_cube_update_fire palette s pixel_buffer) = Gfx.update_heat 128 128 s.
Proof. split; reflexivity. Qed.

Lemma term_update_fire_heat t :
  Term.fire (Term.update_fire t)
  = Term.update_heat (Term.width t) (Term.height t) (Term.fire t).
Proof. reflexivity. Qed.

Lemma gfx_update_well_formed W H s :
  well_formed W H s -> well_formed W H (Gfx.update_heat W H s).
Proof.
  intros Hwf. pose proof Hwf as (HW & _).
  exact (update_well_formed W H _ _ (gfx_local_body W HW) s Hwf).
Qed.

Lemma term_update_well_formed W H s :
  well_formed W H s -> well_formed W H (Term.update_heat W H s).
Proof.
  intros Hwf. pose proof Hwf as (HW & _).
  exact (update_well_formed W H _ _ (term_local_body W HW) s Hwf).
Qed.

Lemma iter_well_formed W H (f : Fire -> Fire) s n :
  (forall s', well_formed W H s' -> well_formed W H (f s')) ->
  well_formed W H s -> well_formed W H (Nat.iter n f s).
Proof.
  intros Hf Hs. induction n as [|n IH]; simpl; auto.
Qed.

(** C5.  From a grid whose cells all lie in [0, 255], after any number
    of calls of [update_fire] every cell still lies in [0, 255] (and the
    grid keeps its size).  No store relies on the wrap-around of
    [uint8_t]: the [int] assigned by every store of the seed loop (spark
    or cooling step) and by every store of the sweep (decay subtraction)
    already lies in [0, 255]. *)
Theorem range_invariant W H s :
  well_formed W H s ->
  (forall n, well_formed W H (Nat.iter n (Gfx.update_heat W H) s) /\
             well_formed W H (Nat.iter n (Term.update_heat W H) s)) /\
  (forall x d v, 0 <= x < W ->
     seed_write ((H - 1) * W) x (seed_until W H x s) = Some (d, v) -> heat_ok v) /\
  (forall y x d v, 0 <= y < H - 1 -> 0 <= x < W ->
     Gfx.cell_write W y x (Gfx.visit W H y x s) = Some (d, v) -> heat_ok v) /\
  (forall y x d v, 0 <= y < H - 1 -> 0 <= x < W ->
     Term.cell_write W y x (Term.visit W H y x s) = Some (d, v) -> heat_ok v).
Proof.
  intros Hwf. pose proof Hwf as (HW & HH & Hlen & Hok).
  split; [|split; [|split]].
  - intros n. split; apply iter_well_formed; trivial.
    + apply gfx_update_well_formed.
    + apply term_update_well_formed.
  - intros x d v Hx. apply seed_write_ok.
    apply (seed_until_facts W H x s); [lia | exact Hok].
  - intros y x d v Hy Hx. apply gfx_write_ok.
    apply (visit_well_formed W H _ _ (gfx_local_body W HW) y x s Hwf); lia.
  - intros y x d v Hy Hx. apply term_write_ok.
    apply (visit_well_formed W H _ _ (term_local_body W HW) y x s Hwf); lia.
Qed.

Lemma range_invariant_witness :
  well_formed 2 2 frame_edges /\
  well_formed 2 2 (Nat.iter 3 (Gfx.update_heat 2 2) frame_edges) /\
  well_formed 2 2 (Nat.iter 3 (Term.update_heat 2 2) frame_edges).
Proof.
  assert (Hwf : well_formed 2 2 frame_edges) by concrete_frame.
  split; [exact Hwf|].
  exact (proj1 (range_invariant 2 2 frame_edges Hwf) 3%nat).
Defined.

Lemma seed_cell_outcome lr x sx :
  Forall heat_ok (fire_buffer sx) ->
  0 <= lr + x < Z.of_nat (length (fire_buffer sx)) ->
  seed_outcome sx (load sx (lr + x)) (load (seed_cell lr x sx) (lr + x)).
Proof.
  intros Hok Hin.
  pose proof (draw_rem_bounds sx 1 50 ltac:(lia)) as Hr.
  pose proof (peek_ok (fire_buffer sx) (lr + x) Hok) as Hp.
  unfold seed_outcome, load in *. rewrite seed_cell_buffer. unfold seed_write, load.
  unfold heat_ok in Hp.
  destruct (c_rem (draw sx 0) 100 <? SPARK_CHANCE) eqn:Hspark.
  - simpl. rewrite peek_poke_eq by exact Hin.
    rewrite to_u8_small by (unfold heat_ok; lia).
    repeat split; intros; lia.
  - destruct (10 <? peek (fire_buffer sx) (lr + x)) eqn:Hhot; simpl.
    + rewrite peek_poke_eq by exact Hin.
      rewrite to_u8_small by (unfold heat_ok; lia).
      repeat split; intros; lia.
    + repeat split; intros; lia.
Qed.

(** C7.  Seed phase, for every bottom-row column [x]: when the draw
    selects the spark branch the cell is set to 255 minus a second draw
    modulo 50, a value in [205, 255]; otherwise the cell loses exactly 5
    if it held more than 10 and is left unchanged if not.  This is the
    value the cell has after the whole call. *)
Theorem seed_phase W H s x :
  well_formed W H s -> 0 <= x < W ->
  let idx := (H - 1) * W + x in
  let sx := seed_until W H x s in
  seed_outcome sx (load s idx) (load (Gfx.update_heat W H s) idx) /\
  seed_outcome sx (load s idx) (load (Term.update_heat W H s) idx).
Proof.
  intros Hwf Hx idx sx. subst idx sx.
  pose proof Hwf as (HW & HH & Hlen & Hok).
  destruct (seed_until_facts W H x s ltac:(lia)) as (Hl & _ & Ho & Hf).
  assert (Hcell : seed_outcome (seed_until W H x s) (load s ((H - 1) * W + x))
                    (load (seed_cell ((H - 1) * W) x (seed_until W H x s))
                          ((H - 1) * W + x))).
  { rewrite <- (Hf ((H - 1) * W + x)) by lia.
    apply seed_cell_outcome; [auto | rewrite Hl; nia]. }
  split.
  - unfold Gfx.update_heat, Gfx.propagate.
    change (Gfx.propagate_row W) with (fun y => for_loop 0 W (Gfx.propagate_cell W y)).
    rewrite (update_seeded W H _ _ (gfx_local_body W HW) s x Hwf Hx). exact Hcell.
  - unfold Term.update_heat, Term.propagate.
    change (Term.propagate_row W) with (fun y => for_loop 0 W (Term.propagate_cell W y)).
    rewrite (update_seeded W H _ _ (term_local_body W HW) s x Hwf Hx). exact Hcell.
Qed.

(** A bottom row at 255 with no spark is at 250 after one call, and a
    dark bottom row where every cell sparks is within [205, 255]. *)
Lemma seed_phase_witness :
  ((well_formed 8 8 frame_cooling /\ 0 <= 3 < 8 /\
    SPARK_CHANCE <= c_rem (draw (seed_until 8 8 3 frame_cooling) 0) 100 /\
    10 < load frame_cooling ((8 - 1) * 8 + 3)) /\
   load frame_cooling ((8 - 1) * 8 + 3) = 255 /\
   load (Gfx.update_heat 8 8 frame_cooling) ((8 - 1) * 8 + 3) = 250 /\
   load (Term.update_heat 8 8 frame_cooling) ((8 - 1) * 8 + 3) = 250) /\
  ((well_formed 8 8 frame_sparks /\ 0 <= 3 < 8 /\
    c_rem (draw (seed_until 8 8 3 frame_sparks) 0) 100 < SPARK_CHANCE) /\
   205 <= load (Gfx.update_heat 8 8 frame_sparks) ((8 - 1) * 8 + 3) <= 255 /\
   205 <= load (Term.update_heat 8 8 frame_sparks) ((8 - 1) * 8 + 3) <= 255).
Proof.
  assert (Hc : well_formed 8 8 frame_cooling) by concrete_frame.
  assert (Hs : well_formed 8 8 frame_sparks) by concrete_frame.
  assert (Hno : SPARK_CHANCE <= c_rem (draw (seed_until 8 8 3 frame_cooling) 0) 100).
  { apply Z.leb_le. vm_compute. reflexivity. }
  assert (Hold : load frame_cooling ((8 - 1) * 8 + 3) = 255).
  { vm_compute. reflexivity. }
  assert (Hhot : 10 < load frame_cooling ((8 - 1) * 8 + 3)).
  { rewrite Hold. lia. }
  assert (Hyes : c_rem (draw (seed_until 8 8 3 frame_sparks) 0) 100 < SPARK_CHANCE).
  { apply Z.ltb_lt. vm_compute. reflexivity. }
  split.
  - split; [split; [exact Hc | repeat split; (assumption || lia)]|].
    split; [exact Hold|].
    destruct (seed_phase 8 8 frame_cooling 3 Hc ltac:(lia))
      as [(_ & Hg & _) (_ & Ht & _)].
    rewrite (Hg Hno Hhot), (Ht Hno Hhot), Hold. split; reflexivity.
  - split; [split; [exact Hs | repeat split; (assumption || lia)]|].
    destruct (seed_phase 8 8 frame_sparks 3 Hs ltac:(lia))
      as [(Hg & _) (Ht & _)].
    split; [exact (proj2 (Hg Hyes)) | exact (proj2 (Ht Hyes))].
Defined.

(** ** One run of the propagation body on a lit cell *)

Lemma rem_attained (m k : Z) :
  0 <= k < m -> exists n : N, c_rem (Z.of_N n) m = k.
Proof.
  intros Hk. exists (Z.to_N k). unfold c_rem.
  rewrite Z2N.id by lia. apply Z.rem_small. exact Hk.
Qed.

Lemma gfx_cell_effect W y x s :
  0 < W -> load s ((y + 1) * W + x) <> 0 ->
  fire_buffer (Gfx.propagate_cell W y x s)
  = poke (fire_buffer s)
         (y * W + clamp (x + (1 - c_rem (draw s 1) 3)) 0 (W - 1))
         (Z.max 0 (load s ((y + 1) * W + x) - c_rem (draw s 0) 3)).
Proof.
  intros HW Hval. rewrite gfx_cell_buffer. unfold Gfx.cell_write, clamp.
  apply Z.eqb_neq in Hval. rewrite Hval. simpl.
  f_equal; repeat case_match; lia.
Qed.

Lemma term_cell_effect_inside W y x s :
  0 < load s ((y + 1) * W + x) ->
  0 <= x + (1 - c_rem (draw s 1) 3) < W ->
  fire_buffer (Term.propagate_cell W y x s)
  = poke (fire_buffer s)
         (y * W + (x + (1 - c_rem (draw s 1) 3)))
         (Z.max 0 (load s ((y + 1) * W + x) - c_rem (draw s 0) (Term.COOLING_MAX + 1))).
Proof.
  intros Hval Hin. rewrite term_cell_buffer. unfold Term.cell_write.
  replace (load s ((y + 1) * W + x) >? 0) with true by lia.
  replace ((x - c_rem (draw s 1) 3 + 1 >=? 0) && (x - c_rem (draw s 1) 3 + 1 <? W))
    with true by lia.
  simpl. f_equal; repeat case_match; lia.
Qed.

Lemma term_cell_effect_outside W y x s :
  0 < load s ((y + 1) * W + x) ->
  ~ 0 <= x + (1 - c_rem (draw s 1) 3) < W ->
  fire_buffer (Term.propagate_cell W y x s) = fire_buffer s.
Proof.
  intros Hval Hout. rewrite term_cell_buffer. unfold Term.cell_write.
  replace (load s ((y + 1) * W + x) >? 0) with true by lia.
  replace ((x - c_rem (draw s 1) 3 + 1 >=? 0) && (x - c_rem (draw s 1) 3 + 1 <? W))
    with false by lia.
  reflexivity.
Qed.

(** C2 as stated fails for fire.c.  At cell (0, 0) of a 2 x 2 grid
    whose lower neighbour holds 255, with decay draw 1 and drift -1,
    the claim has 254 written at column clamp(-1, 0, 1) = 0; fire.c
    leaves the buffer as it was, the old 7 still in the cell.  Over a
    whole call on [frame_edges] fire.c leaves row 0 untouched where
    fire-gfx.c writes both cells. *)
Lemma edge_write_skipped_counterexample :
  (load frame_left_edge (1 * 2 + 0) = 255 /\
   c_rem (draw frame_left_edge 0) (Term.COOLING_MAX + 1) = 1 /\
   1 - c_rem (draw frame_left_edge 1) 3 = -1 /\
   poke (fire_buffer frame_left_edge) (0 * 2 + clamp (0 + -1) 0 (2 - 1)) (Z.max 0 (255 - 1))
   = [254; 7; 255; 255] /\
   fire_buffer (Term.propagate_cell 2 0 0 frame_left_edge) = [7; 7; 255; 255]) /\
  (fire_buffer (Term.update_heat 2 2 frame_edges) = [7; 7; 255; 255] /\
   fire_buffer (Gfx.update_heat 2 2 frame_edges) = [254; 254; 255; 255]).
Proof. vm_compute. repeat split; reflexivity. Qed.

(** C2, amended.  For a cell (y, x) of rows 0 .. height-2 whose lower
    neighbour holds a nonzero [val], with drift k = 1 - rand() % 3, one
    of -1, 0, +1 (each of them for a suitable draw):
    fire-gfx.c and fire-cube.c always write max(0, val - d) at column
    clamp(x + k, 0, width-1) of row y, an index inside the grid;
    fire.c writes max(0, val - d) at column x + k when that column is
    inside the row, and writes nothing when it is not (k = -1 at the
    left edge, k = +1 at the right edge). *)
Theorem drift_write W H s y x :
  0 < W -> 0 <= y < H - 1 -> 0 <= x < W ->
  Forall heat_ok (fire_buffer s) ->
  let val := load s ((y + 1) * W + x) in
  val <> 0 ->
  let k := 1 - c_rem (draw s 1) 3 in
  let dst := y * W + clamp (x + k) 0 (W - 1) in
  (-1 <= k <= 1 /\ forall k0, -1 <= k0 <= 1 -> exists n : N, 1 - c_rem (Z.of_N n) 3 = k0) /\
  (0 <= dst < W * H /\ y * W <= dst < (y + 1) * W /\
   fire_buffer (Gfx.propagate_cell W y x s)
   = poke (fire_buffer s) dst (Z.max 0 (val - c_rem (draw s 0) 3))) /\
  (0 <= x + k < W ->
   fire_buffer (Term.propagate_cell W y x s)
   = poke (fire_buffer s) dst (Z.max 0 (val - c_rem (draw s 0) (Term.COOLING_MAX + 1)))) /\
  (~ 0 <= x + k < W ->
   fire_buffer (Term.propagate_cell W y x s) = fire_buffer s).
Proof.
  intros HW Hy Hx Hok val Hval k dst. subst val k dst.
  pose proof (draw_rem_bounds s 1 3 ltac:(lia)) as Hr.
  pose proof (peek_ok (fire_buffer s) ((y + 1) * W + x) Hok) as Hp.
  fold (load s ((y + 1) * W + x)) in Hp. unfold heat_ok in Hp.
  split; [split|split; [|split]].
  - lia.
  - intros k0 Hk0. destruct (rem_attained 3 (1 - k0) ltac:(lia)) as [n Hn].
    exists n. lia.
  - unfold clamp. split; [nia|]. split; [lia|].
    apply gfx_cell_effect; assumption.
  - intros Hin. rewrite term_cell_effect_inside by (assumption || lia).
    unfold clamp. do 2 f_equal. lia.
  - intros Hout. apply term_cell_effect_outside; [lia | exact Hout].
Qed.

Lemma drift_write_witness :
  (0 < 2 /\ 0 <= 0 < 2 - 1 /\ 0 <= 0 < 2 /\
   Forall heat_ok (fire_buffer frame_left_edge) /\
   load frame_left_edge ((0 + 1) * 2 + 0) <> 0 /\
   ~ 0 <= 0 + (1 - c_rem (draw frame_left_edge 1) 3) < 2) /\
  fire_buffer (Gfx.propagate_cell 2 0 0 frame_left_edge) = [254; 7; 255; 255] /\
  fire_buffer (Term.propagate_cell 2 0 0 frame_left_edge) = fire_buffer frame_left_edge.
Proof.
  assert (Hok : Forall heat_ok (fire_buffer frame_left_edge)).
  { unfold heat_ok. simpl. repeat (constructor; [lia|]). constructor. }
  assert (Hval : load frame_left_edge ((0 + 1) * 2 + 0) <> 0).
  { vm_compute. discriminate. }
  assert (Hout : ~ 0 <= 0 + (1 - c_rem (draw frame_left_edge 1) 3) < 2).
  { vm_compute. intros [Hlo _]. apply Hlo. reflexivity. }
  split; [repeat split; (assumption || lia)|].
  destruct (drift_write 2 2 frame_left_edge 0 0
              ltac:(lia) ltac:(lia) ltac:(lia) Hok Hval)
    as (_ & (_ & _ & Hg) & _ & Ht).
  split.
  - etransitivity; [exact Hg | vm_compute; reflexivity].
  - exact (Ht Hout).
Defined.

Lemma peek_poke_cases buf d w i :
  peek (poke buf d w) i = to_u8 w \/ peek (poke buf d w) i = peek buf i.
Proof.
  destruct (decide (d = i)) as [->|Hne].
  - unfold peek, poke. destruct (i <? 0) eqn:Hi; [right; reflexivity|].
    destruct (decide (Z.to_nat i < length buf)%nat) as [Hin|Hout].
    + left. rewrite list_lookup_insert_eq by exact Hin. reflexivity.
    + right. rewrite list_insert_ge by lia. reflexivity.
  - right. apply peek_poke_ne. exact Hne.
Qed.

Lemma peek_replicate n v i :
  peek (replicate n v) i = v \/ peek (replicate n v) i = 0.
Proof.
  unfold peek. destruct (i <? 0); [right; reflexivity|].
  destruct (replicate n v !! Z.to_nat i) as [w|] eqn:Hw; simpl.
  - left. apply lookup_replicate in Hw. apply Hw.
  - right. reflexivity.
Qed.

Lemma peek_replicate_inside n v i :
  0 <= i < n -> peek (replicate (Z.to_nat n) v) i = v.
Proof.
  intros Hi. unfold peek. replace (i <? 0) with false by lia.
  rewrite lookup_replicate_2 by lia. reflexivity.
Qed.

(** C3 as stated fails for fire-gfx.c (and fire-cube.c), whose decay is
    [rand() % 3]: on the 320 x 200 grid with every cell at 100, no
    value of the random source makes the loop body at cell (0, 0) leave
    97 anywhere. *)
Lemma gfx_never_decays_by_three_counterexample :
  ~ exists (seq : nat -> N) (i : Z),
      load (Gfx.propagate_cell 320 0 0 (frame_gfx_warm seq)) i = 100 - 3.
Proof.
  intros (seq & i & Hseq). unfold load in Hseq.
  assert (Hbelow : load (frame_gfx_warm seq) ((0 + 1) * 320 + 0) = 100).
  { unfold load, frame_gfx_warm. cbn [fire_buffer].
    apply peek_replicate_inside. lia. }
  rewrite gfx_cell_effect in Hseq; [| lia | rewrite Hbelow; discriminate].
  rewrite Hbelow in Hseq.
  pose proof (draw_rem_bounds (frame_gfx_warm seq) 0 3 ltac:(lia)) as Hd.
  destruct (peek_poke_cases (fire_buffer (frame_gfx_warm seq))
              (0 * 320 + clamp (0 + (1 - c_rem (draw (frame_gfx_warm seq) 1) 3)) 0 (320 - 1))
              (Z.max 0 (100 - c_rem (draw (frame_gfx_warm seq) 0) 3)) i) as [Hw|Hw];
    rewrite Hw in Hseq.
  - rewrite to_u8_small in Hseq by (unfold heat_ok; lia). lia.
  - destruct (peek_replicate (Z.to_nat (320 * 200)) 100 i) as [Hr|Hr];
      unfold frame_gfx_warm in Hseq; cbn [fire_buffer] in Hseq;
      rewrite Hr in Hseq; lia.
Qed.

(** C3, amended.  For a cell whose lower neighbour holds a nonzero
    [val], the decay d is one draw of the random source reduced to a
    small range, and the value stored is max(0, val - d).  In fire.c
    d = rand() % (COOLING_MAX + 1) with COOLING_MAX = 3: d lies in
    [0, 3], and every value of that range, 3 included, occurs for some
    draw.  In fire-gfx.c and fire-cube.c d = rand() % 3: d lies in
    [0, 2], and the decrement is never 3. *)
Theorem decay_range W s y x :
  0 < W -> Forall heat_ok (fire_buffer s) ->
  let val := load s ((y + 1) * W + x) in
  val <> 0 ->
  let k := 1 - c_rem (draw s 1) 3 in
  let d_term := c_rem (draw s 0) (Term.COOLING_MAX + 1) in
  let d_gfx := c_rem (draw s 0) 3 in
  (Term.COOLING_MAX = 3 /\ 0 <= d_term <= Term.COOLING_MAX /\
   (forall d, 0 <= d <= Term.COOLING_MAX ->
      exists n : N, c_rem (Z.of_N n) (Term.COOLING_MAX + 1) = d) /\
   (0 <= x + k < W ->
    fire_buffer (Term.propagate_cell W y x s)
    = poke (fire_buffer s) (y * W + (x + k)) (Z.max 0 (val - d_term)))) /\
  (0 <= d_gfx <= 2 /\
   (forall d, 0 <= d <= 2 -> exists n : N, c_rem (Z.of_N n) 3 = d) /\
   fire_buffer (Gfx.propagate_cell W y x s)
   = poke (fire_buffer s) (y * W + clamp (x + k) 0 (W - 1)) (Z.max 0 (val - d_gfx))).
Proof.
  intros HW Hok val Hval k d_term d_gfx. subst val k d_term d_gfx.
  pose proof (draw_rem_bounds s 0 3 ltac:(lia)) as Hg.
  pose proof (draw_rem_bounds s 0 (Term.COOLING_MAX + 1) ltac:(reflexivity)) as Ht.
  pose proof (peek_ok (fire_buffer s) ((y + 1) * W + x) Hok) as Hp.
  fold (load s ((y + 1) * W + x)) in Hp. unfold heat_ok in Hp.
  split; [split; [|split; [|split]] | split; [|split]].
  - reflexivity.
  - lia.
  - intros d Hd. apply rem_attained. lia.
  - intros Hin. apply term_cell_effect_inside; [lia | exact Hin].
  - lia.
  - intros d Hd. apply rem_attained. lia.
  - apply gfx_cell_effect; assumption.
Qed.

(** With decay draw 3 and 100 below, fire.c stores 97 and fire-gfx.c
    stores 100. *)
Lemma decay_range_witness :
  (0 < 1 /\ Forall heat_ok (fire_buffer frame_decay) /\
   load frame_decay ((0 + 1) * 1 + 0) <> 0 /\
   0 <= 0 + (1 - c_rem (draw frame_decay 1) 3) < 1) /\
  load (Term.propagate_cell 1 0 0 frame_decay) 0 = 100 - 3 /\
  load (Gfx.propagate_cell 1 0 0 frame_decay) 0 = 100 - 0.
Proof.
  assert (Hok : Forall heat_ok (fire_buffer frame_decay)).
  { unfold heat_ok. simpl. repeat (constructor; [lia|]). constructor. }
  assert (Hval : load frame_decay ((0 + 1) * 1 + 0) <> 0).
  { vm_compute. discriminate. }
  assert (Hin : 0 <= 0 + (1 - c_rem (draw frame_decay 1) 3) < 1).
  { vm_compute. split; [discriminate | reflexivity]. }
  split; [repeat split; (assumption || lia)|].
  destruct (decay_range 1 frame_decay 0 0 ltac:(lia) Hok Hval)
    as ((_ & _ & _ & Ht) & (_ & _ & Hg)).
  unfold load. split.
  - rewrite (Ht Hin). vm_compute. reflexivity.
  - rewrite Hg. vm_compute. reflexivity.
Defined.

(** ** [resize_buffers] *)

Lemma to_int_small v : - 2 ^ 31 <= v <= INT_MAX -> to_int v = v.
Proof.
  unfold to_int, INT_MAX. intros Hv. rewrite Z.mod_small by lia. lia.
Qed.

Lemma calloc_zero room n : Forall (fun v => v = 0) (Term.calloc room n).
Proof.
  unfold Term.calloc. cbv zeta.
  destruct (to_size_t n <=? room); [apply Forall_replicate; reflexivity | constructor].
Qed.

Lemma calloc_grants room n :
  0 <= n <= INT_MAX -> n <= room -> Term.calloc room n = replicate (Z.to_nat n) 0.
Proof.
  unfold Term.calloc, to_size_t, INT_MAX. intros Hn Hroom. cbv zeta.
  rewrite Z.mod_small by lia.
  destruct (Z.leb_spec n room); [reflexivity | lia].
Qed.

Lemma calloc_refuses room n : room < to_size_t n -> Term.calloc room n = [].
Proof.
  unfold Term.calloc. intros Hroom. cbv zeta.
  destruct (Z.leb_spec (to_size_t n) room); [lia | reflexivity].
Qed.

Lemma calloc_grid room w h seq calls :
  0 < w -> 0 < h -> w * h <= INT_MAX -> w * h <= room ->
  Term.calloc room (to_int (w * h)) = replicate (Z.to_nat (w * h)) 0 /\
  well_formed w h (MkFire (Term.calloc room (to_int (w * h))) seq calls).
Proof.
  intros Hw Hh Hint Hroom.
  assert (Hcells : Term.calloc room (to_int (w * h)) = replicate (Z.to_nat (w * h)) 0).
  { rewrite to_int_small by (unfold INT_MAX in *; nia).
    apply calloc_grants; [nia | exact Hroom]. }
  split; [exact Hcells|].
  unfold well_formed. cbn [fire_buffer]. rewrite Hcells.
  split; [exact Hw|]. split; [exact Hh|]. split.
  - rewrite length_replicate. nia.
  - apply Forall_replicate. unfold heat_ok. lia.
Qed.

(** C6 as stated fails: [resize_buffers] has no dimension check and no
    error to report.  Called with a zero or negative dimension on the
    start state it returns with those dimensions installed; called
    with 65535 x 65535, a size [main] can pass, the [int] product wraps
    to a negative value, [calloc] cannot satisfy the request, and it
    returns with NULL buffers. *)
Lemma resize_accepts_bad_dimensions_counterexample :
  Term.resize_buffers (2 ^ 40) (2 ^ 40) 0 10 (Term.initial (scripted []))
  = Term.Returned (Term.MkState 0 10 (MkFire [] (scripted []) 0) []) /\
  Term.resize_buffers (2 ^ 40) (2 ^ 40) 10 0 (Term.initial (scripted []))
  = Term.Returned (Term.MkState 10 0 (MkFire [] (scripted []) 0) []) /\
  Term.resize_buffers (2 ^ 40) (2 ^ 40) (-1) (-1) (Term.initial (scripted []))
  = Term.Returned (Term.MkState (-1) (-1) (MkFire [0] (scripted []) 0) [0]) /\
  Term.resize_buffers (2 ^ 40) (2 ^ 40) 65535 65535 (Term.initial (scripted []))
  = Term.Returned (Term.MkState 65535 65535 (MkFire [] (scripted []) 0) []).
Proof. repeat split; vm_compute; reflexivity. Qed.

(** C6, amended.  [resize_buffers(w, h)] always returns; the code has
    no InvalidDimensions error, checks no dimension and does not test
    what [calloc] returns.  When (w, h) differs from the current
    dimensions it installs them; whatever [calloc] hands back is all
    zero.  For positive w and h whose product fits an [int] and that
    [calloc] can satisfy, the heat grid is a full w x h grid of zeros,
    as it is then on the first call after program start; when [calloc]
    cannot satisfy the request the heat buffer is NULL.  When (w, h)
    equals the current dimensions it returns at once and the grid keeps
    its contents. *)
Theorem resize_buffers_never_fails fire_room prev_room w h t :
  exists t', Term.resize_buffers fire_room prev_room w h t = Term.Returned t' /\
    (w = Term.width t /\ h = Term.height t -> t' = t) /\
    (~ (w = Term.width t /\ h = Term.height t) ->
     Term.width t' = w /\ Term.height t' = h /\
     Forall (fun v => v = 0) (fire_buffer (Term.fire t')) /\
     (0 < w -> 0 < h -> w * h <= INT_MAX -> w * h <= fire_room ->
      fire_buffer (Term.fire t') = replicate (Z.to_nat (w * h)) 0 /\
      well_formed w h (Term.fire t')) /\
     (fire_room < to_size_t (to_int (w * h)) ->
      fire_buffer (Term.fire t') = [])) /\
    (forall seq, 0 < w -> 0 < h -> w * h <= INT_MAX -> w * h <= fire_room ->
     exists t0,
       Term.resize_buffers fire_room prev_room w h (Term.initial seq) = Term.Returned t0 /\
       well_formed w h (Term.fire t0) /\
       Forall (fun v => v = 0) (fire_buffer (Term.fire t0))).
Proof.
  assert (Hstart : forall seq, 0 < w -> 0 < h -> w * h <= INT_MAX -> w * h <= fire_room ->
            exists t0,
              Term.resize_buffers fire_room prev_room w h (Term.initial seq)
              = Term.Returned t0 /\
              well_formed w h (Term.fire t0) /\
              Forall (fun v => v = 0) (fire_buffer (Term.fire t0))).
  { intros seq Hw Hh Hint Hroom. unfold Term.resize_buffers.
    cbn [Term.initial Term.width Term.height Term.fire rand_seq rand_calls].
    replace ((w =? 0) && (h =? 0)) with false by lia.
    eexists. split; [reflexivity|]. cbn [Term.fire fire_buffer]. split.
    - apply calloc_grid; assumption.
    - apply calloc_zero. }
  unfold Term.resize_buffers.
  destruct ((w =? Term.width t) && (h =? Term.height t)) eqn:Hsame.
  - exists t. split; [reflexivity|]. split; [reflexivity|]. split.
    + intros Hne. exfalso. apply Hne. lia.
    + exact Hstart.
  - eexists. split; [reflexivity|]. split; [|split].
    + intros [-> ->]. rewrite !Z.eqb_refl in Hsame. discriminate.
    + intros _. cbn [Term.width Term.height Term.fire fire_buffer].
      split; [reflexivity|]. split; [reflexivity|].
      split; [apply calloc_zero|]. split.
      * intros Hw Hh Hint Hroom.
        destruct (calloc_grid fire_room w h (rand_seq (Term.fire t))
                    (rand_calls (Term.fire t)) Hw Hh Hint Hroom) as [Hcells Hwf].
        split; [exact Hcells | exact Hwf].
      * apply calloc_refuses.
    + exact Hstart.
Qed.

Lemma resize_buffers_never_fails_witness :
  (0 < 3 /\ 0 < 2 /\ 3 * 2 <= INT_MAX /\ 3 * 2 <= 1024) /\
  exists t0,
    Term.resize_buffers 1024 1024 3 2 (Term.initial (scripted [])) = Term.Returned t0 /\
    well_formed 3 2 (Term.fire t0) /\
    Forall (fun v => v = 0) (fire_buffer (Term.fire t0)).
Proof.
  assert (Hint : 3 * 2 <= INT_MAX) by (unfold INT_MAX; lia).
  split; [split; [lia | split; [lia | split; [exact Hint | lia]]]|].
  destruct (resize_buffers_never_fails 1024 1024 3 2 (Term.initial (scripted [])))
    as (t' & _ & _ & _ & Hstart).
  apply Hstart; [lia | lia | exact Hint | lia].
Defined.

(** ** Consequences for the design notes *)

Lemma checked_load_inside s i :
  0 <= i < Z.of_nat (length (fire_buffer s)) -> checked_load s i = Some (load s i).
Proof.
  intros Hi. unfold checked_load.
  replace ((0 <=? i) && (i <? Z.of_nat (length (fire_buffer s)))) with true by lia.
  reflexivity.
Qed.

Lemma checked_store_inside s i v :
  0 <= i < Z.of_nat (length (fire_buffer s)) -> checked_store s i v = Some (store s i v).
Proof.
  intros Hi. unfold checked_store.
  replace ((0 <=? i) && (i <? Z.of_nat (length (fire_buffer s)))) with true by lia.
  reflexivity.
Qed.

Lemma checked_loop (Inv : Z -> Fire -> Prop) (body : Z -> Fire -> Fire)
    (cbody : Z -> option Fire -> option Fire) lo hi s :
  lo <= hi ->
  Inv lo s ->
  (forall i s', lo <= i < hi -> Inv i s' ->
     cbody i (Some s') = Some (body i s') /\ Inv (i + 1) (body i s')) ->
  for_loop lo hi cbody (Some s) = Some (for_loop lo hi body s) /\
  Inv hi (for_loop lo hi body s).
Proof.
  intros Hle H0 Hstep.
  apply (for_loop_invariant
           (fun i o => o = Some (for_loop lo i body s) /\ Inv i (for_loop lo i body s))).
  - exact Hle.
  - rewrite for_loop_nil by lia. split; [reflexivity | exact H0].
  - intros i o Hi [-> Hinv]. rewrite for_loop_last by lia.
    apply Hstep; assumption.
Qed.

Lemma seed_cell_checked_inside lr x s :
  0 <= lr + x < Z.of_nat (length (fire_buffer s)) ->
  seed_cell_checked lr x s = Some (seed_cell lr x s).
Proof.
  intros Hin. unfold seed_cell_checked, seed_cell, rand. cbv beta iota zeta.
  destruct (c_rem _ 100 <? SPARK_CHANCE).
  - apply checked_store_inside. exact Hin.
  - rewrite checked_load_inside by exact Hin.
    destruct (10 <? load _ (lr + x)); [|reflexivity].
    apply checked_store_inside. exact Hin.
Qed.

Lemma gfx_cell_checked_inside W H y x s :
  0 < W -> 0 <= y < H - 1 -> 0 <= x < W ->
  Z.of_nat (length (fire_buffer s)) = W * H ->
  Gfx.propagate_cell_checked W y x s = Some (Gfx.propagate_cell W y x s).
Proof.
  intros HW Hy Hx Hlen.
  unfold Gfx.propagate_cell_checked, Gfx.propagate_cell, rand. cbv beta iota zeta.
  rewrite checked_load_inside by nia.
  destruct (load s ((y + 1) * W + x) =? 0).
  - apply checked_store_inside. nia.
  - apply checked_store_inside. cbn [fire_buffer].
    repeat case_match; nia.
Qed.

Lemma term_cell_checked_inside W H y x s :
  0 < W -> 0 <= y < H - 1 -> 0 <= x < W ->
  Z.of_nat (length (fire_buffer s)) = W * H ->
  Term.propagate_cell_checked W y x s = Some (Term.propagate_cell W y x s).
Proof.
  intros HW Hy Hx Hlen.
  unfold Term.propagate_cell_checked, Term.propagate_cell, rand. cbv beta iota zeta.
  rewrite checked_load_inside by (cbn [fire_buffer]; nia).
  destruct (load _ ((y + 1) * W + x) >? 0).
  - destruct ((x - c_rem _ 3 + 1 >=? 0) && (x - c_rem _ 3 + 1 <? W)) eqn:Hguard;
      [|reflexivity].
    apply checked_store_inside. cbn [fire_buffer]. nia.
  - apply checked_store_inside. cbn [fire_buffer]. nia.
Qed.

Lemma seed_row_checked_inside W H s :
  well_formed W H s -> seed_row_checked W H s = Some (seed_row W H s).
Proof.
  intros (HW & HH & Hlen & _). unfold seed_row_checked, seed_row. cbv zeta.
  apply (checked_loop
           (fun _ s' => length (fire_buffer s') = length (fire_buffer s))
           (seed_cell ((H - 1) * W))
           (fun x => and_then (seed_cell_checked ((H - 1) * W) x))); [lia | reflexivity |].
  intros x s' Hx Hs'. cbn [and_then]. split.
  - apply seed_cell_checked_inside. rewrite Hs'. nia.
  - rewrite seed_cell_buffer, length_apply_write. exact Hs'.
Qed.

Lemma sweep_checked_inside W H
    (cell : Z -> Z -> Fire -> Fire) (ccell : Z -> Z -> Fire -> option Fire) s :
  0 < W -> 0 < H ->
  Z.of_nat (length (fire_buffer s)) = W * H ->
  (forall y x s', length (fire_buffer (cell y x s')) = length (fire_buffer s')) ->
  (forall y x s', 0 <= y < H - 1 -> 0 <= x < W ->
     Z.of_nat (length (fire_buffer s')) = W * H ->
     ccell y x s' = Some (cell y x s')) ->
  for_loop 0 (H - 1)
    (fun y => for_loop 0 W (fun x => and_then (ccell y x))) (Some s)
  = Some (for_loop 0 (H - 1) (fun y => for_loop 0 W (cell y)) s).
Proof.
  intros HW HH Hlen Hkeep Hcell.
  apply (checked_loop
           (fun _ s' => Z.of_nat (length (fire_buffer s')) = W * H)
           (fun y => for_loop 0 W (cell y))
           (fun y => for_loop 0 W (fun x => and_then (ccell y x)))); [lia | exact Hlen |].
  intros y s' Hy Hs'.
  apply (checked_loop
           (fun _ s'' => Z.of_nat (length (fire_buffer s'')) = W * H)
           (cell y) (fun x => and_then (ccell y x))); [lia | exact Hs' |].
  intros x s'' Hx Hs''. cbn [and_then]. split.
  - apply Hcell; assumption.
  - rewrite Hkeep. exact Hs''.
Qed.

(** Every access of one [update_fire] call to [fire_buffer] is inside
    it: on a grid with at least one row and one column, the call run
    with every load and store checked against the buffer meets no fault
    and returns the very state the code as written returns. *)
Lemma accesses_inside_grid W H s :
  well_formed W H s ->
  Gfx.update_heat_checked W H s = Some (Gfx.update_heat W H s) /\
  Term.update_heat_checked W H s = Some (Term.update_heat W H s).
Proof.
  intros Hwf. pose proof (seed_row_well_formed W H s Hwf) as (HW & HH & Hlen & _).
  unfold Gfx.update_heat_checked, Term.update_heat_checked.
  rewrite (seed_row_checked_inside W H s Hwf). cbn [and_then].
  unfold Gfx.update_heat, Term.update_heat. split.
  - apply (sweep_checked_inside W H (Gfx.propagate_cell W)
             (Gfx.propagate_cell_checked W)); [exact HW | exact HH | exact Hlen | |].
    + intros y x s'. rewrite gfx_cell_buffer. apply length_apply_write.
    + intros y x s' Hy Hx Hs'. apply (gfx_cell_checked_inside W H); assumption.
  - apply (sweep_checked_inside W H (Term.propagate_cell W)
             (Term.propagate_cell_checked W)); [exact HW | exact HH | exact Hlen | |].
    + intros y x s'. rewrite term_cell_buffer. apply length_apply_write.
    + intros y x s' Hy Hx Hs'. apply (term_cell_checked_inside W H); assumption.
Qed.

Section Coupling.
Variable W : Z.
Variable cell : Z -> Z -> Fire -> Fire.
Variable write : Z -> Z -> Fire -> option (Z * Z).
Variable cell_from : list Z -> Z -> Z -> Fire -> Fire.
Hypothesis body : local_body W cell write.
Hypothesis agree : forall src y x s,
  peek src ((y + 1) * W + x) = load s ((y + 1) * W + x) ->
  cell_from src y x s = cell y x s.

Lemma sweep_coupled n s :
  for_loop 0 n (fun y => for_loop 0 W (cell y)) s
  = for_loop 0 n (fun y => for_loop 0 W (cell_from (fire_buffer s) y)) s.
Proof.
  pose proof (W_pos W cell write body) as HW.
  destruct (Z_le_gt_dec 0 n) as [Hn|Hn]; [|rewrite !for_loop_nil by lia; reflexivity].
  apply (for_loop_ext_on
           (fun y s' => s' = for_loop 0 y (fun y' => for_loop 0 W (cell y')) s));
    [exact Hn | symmetry; apply for_loop_nil; lia |].
  intros y s' Hy ->.
  split; [|symmetry; apply (for_loop_last 0 y (fun y' => for_loop 0 W (cell y')) s); lia].
  apply (for_loop_ext_on (fun x s'' => s'' = sweep_until W cell y x s));
    [lia | unfold sweep_until; symmetry; apply for_loop_nil; lia |].
  intros x s'' Hx ->. split.
  - symmetry. apply agree. symmetry.
    apply (sweep_reads_below W cell write body); lia.
  - symmetry. apply (sweep_until_step W cell). lia.
Qed.
End Coupling.

Lemma gfx_cell_from_agrees W src y x s :
  peek src ((y + 1) * W + x) = load s ((y + 1) * W + x) ->
  gfx_cell_from src W y x s = Gfx.propagate_cell W y x s.
Proof.
  intros Hsame. unfold gfx_cell_from, Gfx.propagate_cell. rewrite Hsame. reflexivity.
Qed.

Lemma term_cell_from_agrees W src y x s :
  peek src ((y + 1) * W + x) = load s ((y + 1) * W + x) ->
  term_cell_from src W y x s = Term.propagate_cell W y x s.
Proof.
  intros Hsame. unfold term_cell_from, Term.propagate_cell, rand, load in *.
  simpl. rewrite Hsame. reflexivity.
Qed.

(** The in-place sweep computes what a double-buffered sweep computes:
    no row is read after it was rewritten in the same sweep. *)
Theorem in_place_sweep_is_double_buffered W H s :
  0 < W ->
  Gfx.propagate W H s = sweep_from gfx_cell_from W H s /\
  Term.propagate W H s = sweep_from term_cell_from W H s.
Proof.
  intros HW. split.
  - exact (sweep_coupled W _ _ (fun src => gfx_cell_from src W)
             (gfx_local_body W HW)
             (fun src y x s' => gfx_cell_from_agrees W src y x s') (H - 1) s).
  - exact (sweep_coupled W _ _ (fun src => term_cell_from src W)
             (term_local_body W HW)
             (fun src y x s' => term_cell_from_agrees W src y x s') (H - 1) s).
Qed.

Lemma in_place_sweep_is_double_buffered_witness :
  0 < 2 /\
  Gfx.propagate 2 2 frame_left_edge = sweep_from gfx_cell_from 2 2 frame_left_edge /\
  Term.propagate 2 2 frame_left_edge = sweep_from term_cell_from 2 2 frame_left_edge.
Proof.
  split; [lia|].
  apply (in_place_sweep_is_double_buffered 2 2 frame_left_edge). lia.
Defined.

(** * Further properties of the kernel *)

(** ** Where the heat of a cell comes from *)

Lemma gfx_write_decays W y x s d v :
  Forall heat_ok (fire_buffer s) -> Gfx.cell_write W y x s = Some (d, v) ->
  exists dec, 0 <= dec <= 2 /\ v = Z.max 0 (load s ((y + 1) * W + x) - dec).
Proof.
  intros Hok. unfold Gfx.cell_write.
  pose proof (draw_rem_bounds s 0 3 ltac:(lia)) as Hr.
  destruct (load s ((y + 1) * W + x) =? 0) eqn:Hz; intros [= <- <-].
  - exists 0. lia.
  - exists (c_rem (draw s 0) 3). split; [lia|]. case_match; lia.
Qed.

Lemma term_write_decays W y x s d v :
  Forall heat_ok (fire_buffer s) -> Term.cell_write W y x s = Some (d, v) ->
  exists dec, 0 <= dec <= Term.COOLING_MAX /\
              v = Z.max 0 (load s ((y + 1) * W + x) - dec).
Proof.
  intros Hok. unfold Term.cell_write.
  pose proof (draw_rem_bounds s 0 (Term.COOLING_MAX + 1) ltac:(reflexivity)) as Hr.
  pose proof (peek_ok (fire_buffer s) ((y + 1) * W + x) Hok) as Hp.
  fold (load s ((y + 1) * W + x)) in Hp. unfold heat_ok in Hp.
  unfold Term.COOLING_MAX in *.
  destruct (load s ((y + 1) * W + x) >? 0) eqn:Hz.
  - case_match; intros [= <- <-].
    exists (c_rem (draw s 0) (3 + 1)). split; [lia|]. case_match; lia.
  - intros [= <- <-]. exists 0. lia.
Qed.

Section Provenance.
Variables W H D : Z.
Variable cell : Z -> Z -> Fire -> Fire.
Variable write : Z -> Z -> Fire -> option (Z * Z).
Hypothesis body : local_body W cell write.
Hypothesis write_decays : forall y x s d v,
  Forall heat_ok (fire_buffer s) -> write y x s = Some (d, v) ->
  exists dec, 0 <= dec <= D /\ v = Z.max 0 (load s ((y + 1) * W + x) - dec).

Let update (s : Fire) : Fire :=
  for_loop 0 (H - 1) (fun y => for_loop 0 W (cell y)) (seed_row W H s).

Lemma update_provenance s y x :
  well_formed W H s -> 0 <= y < H - 1 -> 0 <= x < W ->
  load (update s) (y * W + x) = load s (y * W + x) \/
  risen_from D W (fun c => load (seed_row W H s) ((y + 1) * W + c)) x
             (load (update s) (y * W + x)).
Proof.
  intros Hwf Hy Hx. pose proof Hwf as (HW & HH & _).
  apply seed_row_well_formed in Hwf. destruct Hwf as (_ & _ & Hlen & Hok).
  rewrite <- (seed_row_above W H s (y * W + x)) by nia.
  unfold update. set (s0 := seed_row W H s) in *.
  rewrite (sweep_cut W cell write body (H - 1) y 0) by lia.
  destruct (rows_facts W cell write body (y + 1) (H - 1)
              (for_loop 0 W (cell y) (sweep_until W cell y 0 s0)) ltac:(lia))
    as (_ & _ & _ & Hf).
  rewrite Hf by lia. clear Hf.
  assert (Hstart : load (sweep_until W cell y 0 s0) (y * W + x) = load s0 (y * W + x)).
  { unfold sweep_until. rewrite (for_loop_nil 0 0) by lia.
    apply (rows_facts W cell write body 0 y s0); lia. }
  rewrite <- Hstart.
  apply (for_loop_invariant
           (fun c s' =>
              s' = sweep_until W cell y c s0 /\
              (load s' (y * W + x) = load (sweep_until W cell y 0 s0) (y * W + x) \/
               risen_from D W (fun c' => load s0 ((y + 1) * W + c')) x
                          (load s' (y * W + x)))));
    [lia | auto |].
  intros c s' Hc [-> IH].
  split; [symmetry; apply (sweep_until_step W cell); lia|].
  destruct (sweep_until_facts W cell write body y c s0 ltac:(lia) ltac:(lia))
    as (Hl & _ & Ho & _).
  destruct (write y c (sweep_until W cell y c s0)) as [[d v]|] eqn:Hw.
  - destruct (decide (d = y * W + x)) as [->|Hne].
    + right. destruct (write_decays _ _ _ _ _ (Ho Hok) Hw) as (dec & Hdec & ->).
      destruct (write_near W cell write body y c _ _ _ Hc Hw) as [_ Hnear].
      rewrite (sweep_reads_below W cell write body) in Hw by lia.
      pose proof (peek_ok (fire_buffer s0) ((y + 1) * W + c) Hok) as Hp.
      fold (load s0 ((y + 1) * W + c)) in Hp. unfold heat_ok in Hp.
      exists c, dec. split; [lia|]. split; [lia|]. split; [lia|].
      unfold load at 1. rewrite (cell_buffer W cell write body), Hw. simpl.
      rewrite peek_poke_eq by (rewrite Hl; nia).
      apply to_u8_small. unfold heat_ok. lia.
    + rewrite (cell_load_ne W cell write body).
      * exact IH.
      * intros d' v' Hw'. rewrite Hw in Hw'. injection Hw' as <- _. exact Hne.
  - rewrite (cell_load_ne W cell write body).
    + exact IH.
    + intros d' v' Hw'. rewrite Hw in Hw'. discriminate.
Qed.

(** Rows with nothing below them to burn stay dark. *)
Lemma update_dark s k :
  well_formed W H s -> k <= H - 1 -> dark_above W k s ->
  dark_above W (k - 1) (update s).
Proof.
  intros Hwf Hk Hdark i Hi. pose proof Hwf as (HW & HH & _).
  assert (Hyx : i = (i / W) * W + i mod W) by (rewrite Z.mul_comm; apply Z.div_mod; lia).
  pose proof (Z.mod_pos_bound i W HW) as Hx.
  assert (Hy : 0 <= i / W < k - 1).
  { split; [apply Z.div_pos; lia | apply Z.div_lt_upper_bound; lia]. }
  set (y := i / W) in *. set (x := i mod W) in *. rewrite Hyx.
  assert (Hbelow : forall c, 0 <= c < W ->
            load (seed_row W H s) ((y + 1) * W + c) = 0).
  { intros c Hc. rewrite seed_row_above by nia. apply Hdark. nia. }
  apply (update_zero W H cell write body s y x Hwf); [lia | lia | |].
  - apply Hbelow. lia.
  - destruct (decide (x = W - 1)) as [Hlast|Hmore]; [left; exact Hlast|].
    right. apply Hbelow. lia.
Qed.

Lemma update_dark_iter s k n :
  well_formed W H s -> k <= H - 1 -> dark_above W k s ->
  dark_above W (k - Z.of_nat n) (Nat.iter n update s).
Proof.
  intros Hwf Hk Hdark. induction n as [|n IH].
  - simpl. replace (k - Z.of_nat 0) with k by lia. exact Hdark.
  - simpl. replace (k - Z.of_nat (S n)) with (k - Z.of_nat n - 1) by lia.
    apply update_dark; [| lia | exact IH].
    apply iter_well_formed; [|exact Hwf].
    intros s' Hs'. exact (update_well_formed W H cell write body s' Hs').
Qed.

(** A source cell at or above a level [m <= 6] stays there. *)
Lemma update_source_level s x m :
  well_formed W H s -> 0 <= x < W -> m <= 6 ->
  m <= load s ((H - 1) * W + x) ->
  m <= load (update s) ((H - 1) * W + x).
Proof.
  intros Hwf Hx Hm Hold. pose proof Hwf as (HW & HH & Hlen & Hok).
  unfold update. rewrite (update_seeded W H cell write body s x Hwf Hx).
  destruct (seed_until_facts W H x s ltac:(lia)) as (Hl & _ & Ho & Hf).
  rewrite <- (Hf ((H - 1) * W + x)) in Hold by lia.
  destruct (seed_cell_outcome ((H - 1) * W) x (seed_until W H x s)
              (Ho Hok) ltac:(rewrite Hl; nia)) as (Hspark & Hcool & Hkeep).
  destruct (Z_lt_ge_dec (c_rem (draw (seed_until W H x s) 0) 100) SPARK_CHANCE)
    as [Hyes|Hno].
  - destruct (Hspark Hyes) as [_ Hrange]. lia.
  - destruct (Z_lt_ge_dec 10 (load (seed_until W H x s) ((H - 1) * W + x)))
      as [Hhot|Hcold].
    + rewrite (Hcool ltac:(lia) Hhot). lia.
    + rewrite (Hkeep ltac:(lia) ltac:(lia)). exact Hold.
Qed.

Lemma update_source_level_iter s x m n :
  well_formed W H s -> 0 <= x < W -> m <= 6 ->
  m <= load s ((H - 1) * W + x) ->
  m <= load (Nat.iter n update s) ((H - 1) * W + x).
Proof.
  intros Hwf Hx Hm Hold. induction n as [|n IH]; [exact Hold|].
  simpl. apply update_source_level; try assumption.
  apply iter_well_formed; [|exact Hwf].
  intros s' Hs'. exact (update_well_formed W H cell write body s' Hs').
Qed.
End Provenance.

(** After a call every cell above the bottom row holds either the
    value it held before, or what one of the three cells below it held
    when the sweep began (for row height-2: after seeding), less a
    decay of at most 2 in fire-gfx.c and fire-cube.c and at most
    [COOLING_MAX] in fire.c, floored at 0.  Heat never grows on its way
    up. *)
Theorem heat_rises_from_below W H s y x :
  well_formed W H s -> 0 <= y < H - 1 -> 0 <= x < W ->
  let below c := load (seed_row W H s) ((y + 1) * W + c) in
  let old := load s (y * W + x) in
  (load (Gfx.update_heat W H s) (y * W + x) = old \/
   risen_from 2 W below x (load (Gfx.update_heat W H s) (y * W + x))) /\
  (load (Term.update_heat W H s) (y * W + x) = old \/
   risen_from Term.COOLING_MAX W below x (load (Term.update_heat W H s) (y * W + x))).
Proof.
  intros Hwf Hy Hx below old. subst below old.
  pose proof Hwf as (HW & _). split.
  - exact (update_provenance W H 2 _ _ (gfx_local_body W HW)
             (gfx_write_decays W) s y x Hwf Hy Hx).
  - exact (update_provenance W H Term.COOLING_MAX _ _ (term_local_body W HW)
             (term_write_decays W) s y x Hwf Hy Hx).
Qed.

Lemma heat_rises_from_below_witness :
  (well_formed 2 3 frame_drift_gfx /\ 0 <= 0 < 3 - 1 /\ 0 <= 0 < 2) /\
  (load (Gfx.update_heat 2 3 frame_drift_gfx) (0 * 2 + 0)
   = load frame_drift_gfx (0 * 2 + 0) \/
   risen_from 2 2 (fun c => load (seed_row 2 3 frame_drift_gfx) ((0 + 1) * 2 + c)) 0
              (load (Gfx.update_heat 2 3 frame_drift_gfx) (0 * 2 + 0))).
Proof.
  assert (Hwf : well_formed 2 3 frame_drift_gfx) by concrete_frame.
  split; [split; [exact Hwf | lia]|].
  exact (proj1 (heat_rises_from_below 2 3 frame_drift_gfx 0 0 Hwf
                  ltac:(lia) ltac:(lia))).
Defined.

(** Flames climb at most one row per call: if rows 0 .. k-1 are dark
    (k <= height-1), then after n calls rows 0 .. k-n-1 are still dark.
    From a cold grid the fire needs height-1-y calls to reach row y. *)
Theorem flames_climb_one_row_per_call W H s k n :
  well_formed W H s -> k <= H - 1 -> dark_above W k s ->
  dark_above W (k - Z.of_nat n) (Nat.iter n (Gfx.update_heat W H) s) /\
  dark_above W (k - Z.of_nat n) (Nat.iter n (Term.update_heat W H) s).
Proof.
  intros Hwf Hk Hdark. pose proof Hwf as (HW & _). split.
  - exact (update_dark_iter W H _ _ (gfx_local_body W HW) s k n Hwf Hk Hdark).
  - exact (update_dark_iter W H _ _ (term_local_body W HW) s k n Hwf Hk Hdark).
Qed.

Lemma flames_climb_one_row_per_call_witness :
  (well_formed 8 8 frame_sparks /\ 7 <= 8 - 1 /\ dark_above 8 7 frame_sparks) /\
  dark_above 8 (7 - Z.of_nat 3) (Nat.iter 3 (Gfx.update_heat 8 8) frame_sparks) /\
  dark_above 8 (7 - Z.of_nat 3) (Nat.iter 3 (Term.update_heat 8 8) frame_sparks).
Proof.
  assert (Hwf : well_formed 8 8 frame_sparks) by concrete_frame.
  assert (Hdark : dark_above 8 7 frame_sparks).
  { intros i Hi. unfold load, frame_sparks, peek. cbn [fire_buffer].
    replace (i <? 0) with false by lia.
    rewrite lookup_replicate_2 by lia. reflexivity. }
  split; [split; [exact Hwf | split; [lia | exact Hdark]]|].
  apply (flames_climb_one_row_per_call 8 8 frame_sparks 7 3 Hwf); [lia | exact Hdark].
Defined.

(** The source row does not go out: a bottom cell at or above a level
    m <= 6 is still at or above it after any number of calls.  A lit
    cell (m = 1) stays lit, and a cell that has sparked once never
    drops below 6. *)
Theorem source_cell_stays_lit W H s x m n :
  well_formed W H s -> 0 <= x < W -> m <= 6 ->
  m <= load s ((H - 1) * W + x) ->
  m <= load (Nat.iter n (Gfx.update_heat W H) s) ((H - 1) * W + x) /\
  m <= load (Nat.iter n (Term.update_heat W H) s) ((H - 1) * W + x).
Proof.
  intros Hwf Hx Hm Hold. pose proof Hwf as (HW & _). split.
  - exact (update_source_level_iter W H _ _ (gfx_local_body W HW) s x m n
             Hwf Hx Hm Hold).
  - exact (update_source_level_iter W H _ _ (term_local_body W HW) s x m n
             Hwf Hx Hm Hold).
Qed.

Lemma source_cell_stays_lit_witness :
  (well_formed 8 8 frame_cooling /\ 0 <= 3 < 8 /\ 6 <= 6 /\
   6 <= load frame_cooling ((8 - 1) * 8 + 3)) /\
  6 <= load (Nat.iter 60 (Gfx.update_heat 8 8) frame_cooling) ((8 - 1) * 8 + 3) /\
  6 <= load (Nat.iter 60 (Term.update_heat 8 8) frame_cooling) ((8 - 1) * 8 + 3).
Proof.
  assert (Hwf : well_formed 8 8 frame_cooling) by concrete_frame.
  assert (Hold : 6 <= load frame_cooling ((8 - 1) * 8 + 3)).
  { apply Z.leb_le. vm_compute. reflexivity. }
  split; [split; [exact Hwf | split; [lia | split; [lia | exact Hold]]]|].
  apply (source_cell_stays_lit 8 8 frame_cooling 3 6 60 Hwf); [lia | lia | exact Hold].
Defined.

(** ** The pixels of fire-gfx.c and fire-cube.c *)

Lemma gfx_palette_peek (p0 : list Z) h :
  length p0 = 256%nat -> heat_ok h ->
  peek (Gfx.init_palette p0) h = Gfx.argb (Gfx.ramp h).
Proof.
  intros Hlen Hh. unfold heat_ok in Hh. unfold peek.
  replace (h <? 0) with false by lia.
  rewrite gfx_palette_lookup by (assumption || lia). reflexivity.
Qed.

(** One call of [update_fire] with the palette of [init_palette]
    leaves in every pixel the opaque colour that the four ramps give
    to the heat the cell has after the call; the pixel buffer keeps
    its size, and every palette lookup is inside the 256 entries. *)
Theorem pixels_show_updated_heat W H (p0 : list Z) s (px : list Z) :
  well_formed W H s ->
  Z.of_nat (length px) = W * H ->
  length p0 = 256%nat ->
  let out := Gfx.update_fire W H (Gfx.init_palette p0) s px in
  length (snd out) = length px /\
  forall i, 0 <= i < W * H ->
    heat_ok (load (fst out) i) /\
    exists p, snd out !! Z.to_nat i = Some p /\
              p = peek (Gfx.init_palette p0) (load (fst out) i) /\
              Gfx.channels p = spec_ramp (load (fst out) i) /\
              Gfx.alpha p = 255.
Proof.
  intros Hwf Hpx Hp0 out. subst out. unfold Gfx.update_fire. cbv zeta. simpl.
  apply gfx_update_well_formed in Hwf. destruct Hwf as (_ & _ & _ & Hok).
  set (s' := Gfx.update_heat W H s) in *.
  destruct (fill_spec (fun i => peek (Gfx.init_palette p0) (load s' i)) (W * H) px
              ltac:(lia)) as (Hlen & Hin & _).
  split; [exact Hlen|].
  intros i Hi.
  assert (Hh : heat_ok (load s' i)) by (apply peek_ok; exact Hok).
  split; [exact Hh|].
  exists (peek (Gfx.init_palette p0) (load s' i)).
  split; [apply Hin; exact Hi|]. split; [reflexivity|].
  rewrite gfx_palette_peek by assumption.
  apply gfx_ramp_spec. unfold heat_ok in Hh. lia.
Qed.

Lemma pixels_show_updated_heat_witness :
  (well_formed 2 2 frame_stale /\
   Z.of_nat (length (replicate 4 0 : list Z)) = 2 * 2 /\
   length palette_at_start = 256%nat) /\
  exists p,
    snd (Gfx.update_fire 2 2 (Gfx.init_palette palette_at_start) frame_stale
           (replicate 4 0)) !! Z.to_nat 3 = Some p /\
    Gfx.channels p
    = spec_ramp (load (fst (Gfx.update_fire 2 2 (Gfx.init_palette palette_at_start)
                              frame_stale (replicate 4 0))) 3).
Proof.
  assert (Hwf : well_formed 2 2 frame_stale) by concrete_frame.
  split; [split; [exact Hwf | split; reflexivity]|].
  destruct (pixels_show_updated_heat 2 2 palette_at_start frame_stale (replicate 4 0)
              Hwf eq_refl eq_refl) as [_ Hall].
  destruct (Hall 3 ltac:(lia)) as (_ & p & Hp & _ & Hc & _).
  exists p. split; [exact Hp | exact Hc].
Defined.

(** The checked call on a 2 x 2 grid whose bottom row sparks and whose
    sweep stores twice: no fault, and the heat the code computes.  On
    a grid without rows, or on a buffer one cell short, the checked
    call does fault. *)
Lemma accesses_inside_grid_witness :
  well_formed 2 2 frame_stale /\
  fire_buffer <$> Gfx.update_heat_checked 2 2 frame_stale = Some [7; 255; 255; 255] /\
  fire_buffer <$> Term.update_heat_checked 2 2 frame_stale = Some [7; 255; 255; 255] /\
  Term.update_heat_checked 2 0 (MkFire [] (scripted []) 0) = None /\
  Gfx.update_heat_checked 2 2 (MkFire [7; 7; 0] (scripted []) 0) = None.
Proof.
  assert (Hwf : well_formed 2 2 frame_stale) by concrete_frame.
  split; [exact Hwf|].
  destruct (accesses_inside_grid 2 2 frame_stale Hwf) as [Hgfx Hterm].
  rewrite Hgfx, Hterm.
  split; [vm_compute; reflexivity|]. split; [vm_compute; reflexivity|].
  split; vm_compute; reflexivity.
Defined.

(** ** The 256-colour palette of fire.c *)

Lemma term_palette_snd (pals : list Term.ColorRGB * list Z) :
  snd (Term.init_palette pals)
  = for_loop 0 256 (fun i t => <[Z.to_nat i := Term.ramp_256 i]> t) (snd pals).
Proof.
  unfold Term.init_palette.
  apply (for_loop_invariant
           (fun m p => snd p
                       = for_loop 0 m (fun i t => <[Z.to_nat i := Term.ramp_256 i]> t)
                                  (snd pals)));
    [lia | reflexivity |].
  intros m p Hm Hp. rewrite for_loop_last by lia. simpl. rewrite Hp. reflexivity.
Qed.

Lemma ramp_256_facts i :
  0 <= i < 256 ->
  16 <= Term.ramp_256 i <= 231 /\
  (Term.ramp_256 i = 16 <-> i = 0) /\
  (i + 1 < 256 -> Term.ramp_256 i <= Term.ramp_256 (i + 1)).
Proof.
  revert i.
  apply (below_256 (fun i => 16 <= Term.ramp_256 i <= 231 /\
                             (Term.ramp_256 i = 16 <-> i = 0) /\
                             (i + 1 < 256 -> Term.ramp_256 i <= Term.ramp_256 (i + 1)))).
  vm_compute. reflexivity.
Qed.

Lemma ramp_256_monotone i j :
  0 <= i -> i <= j -> j < 256 -> Term.ramp_256 i <= Term.ramp_256 j.
Proof.
  intros Hi Hij Hj.
  replace j with (i + Z.of_nat (Z.to_nat (j - i))) in * by lia.
  induction (Z.to_nat (j - i)) as [|n IH].
  - replace (i + Z.of_nat 0) with i by lia. lia.
  - etransitivity; [apply IH; lia|].
    replace (i + Z.of_nat (S n)) with (i + Z.of_nat n + 1) in * by lia.
    apply ramp_256_facts; lia.
Qed.

(** [init_palette] fills [palette_256] with 256 indices that depend on
    the entry's position alone.  Each is an index of the xterm colour
    cube (16 .. 231, no wrap-around in the [uint8_t]); the indices do
    not decrease with the intensity; and only intensity 0 gets index
    16, black. *)
Theorem fallback_palette_indices (pals : list Term.ColorRGB * list Z) :
  length (snd pals) = 256%nat ->
  let p := snd (Term.init_palette pals) in
  length p = 256%nat /\
  (forall i, 0 <= i < 256 ->
     p !! Z.to_nat i = Some (Term.ramp_256 i) /\
     16 <= peek p i <= 231 /\
     (peek p i = 16 <-> i = 0)) /\
  (forall i j, 0 <= i -> i <= j -> j < 256 -> peek p i <= peek p j).
Proof.
  intros Hlen p. subst p. rewrite term_palette_snd.
  destruct (fill_spec Term.ramp_256 256 (snd pals) ltac:(lia)) as (Hl & Hin & _).
  assert (Hpeek : forall i, 0 <= i < 256 ->
            peek (for_loop 0 256 (fun i t => <[Z.to_nat i := Term.ramp_256 i]> t)
                           (snd pals)) i = Term.ramp_256 i).
  { intros i Hi. unfold peek. replace (i <? 0) with false by lia.
    rewrite Hin by exact Hi. reflexivity. }
  split; [rewrite Hl; exact Hlen|]. split.
  - intros i Hi. rewrite Hpeek by exact Hi.
    split; [apply Hin; exact Hi|].
    destruct (ramp_256_facts i Hi) as (Hrange & Hblack & _). split; assumption.
  - intros i j Hi Hij Hj. rewrite !Hpeek by lia. apply ramp_256_monotone; lia.
Qed.

Lemma fallback_palette_indices_witness :
  length (snd palettes_at_start) = 256%nat /\
  peek (snd (Term.init_palette palettes_at_start)) 100
  <= peek (snd (Term.init_palette palettes_at_start)) 200.
Proof.
  assert (Hlen : length (snd palettes_at_start) = 256%nat) by reflexivity.
  split; [exact Hlen|].
  apply (fallback_palette_indices palettes_at_start Hlen); lia.
Defined.

Lemma spec_ramp_black i : 0 <= i < 256 -> spec_ramp i = (0, 0, 0) <-> i = 0.
Proof.
  intros Hi. unfold spec_ramp. repeat case_match; split; intros Heq;
    try (injection Heq; intros); try lia; try discriminate; subst; try reflexivity.
Qed.

(** In every program a cell is drawn black exactly when it holds no
    heat: of the 256 palette entries only entry 0 is (0, 0, 0). *)
Theorem only_cold_cells_are_black
    (palette : list Z) (pals : list Term.ColorRGB * list Z) (i : Z) :
  length palette = 256%nat ->
  length (fst pals) = 256%nat ->
  0 <= i < 256 ->
  (gfx_color (Gfx.init_palette palette) i = Some (0, 0, 0) <-> i = 0) /\
  (term_color (fst (Term.init_palette pals)) i = Some (0, 0, 0) <-> i = 0).
Proof.
  intros Hg Ht Hi.
  rewrite gfx_color_spec, term_color_spec by assumption.
  pose proof (spec_ramp_black i Hi) as Hb.
  split; (split; [intros [= Heq]; apply Hb; exact Heq
                 | intros Heq; f_equal; apply Hb; exact Heq]).
Qed.

Lemma only_cold_cells_are_black_witness :
  (length palette_at_start = 256%nat /\ length (fst palettes_at_start) = 256%nat /\
   0 <= 1 < 256) /\
  gfx_color (Gfx.init_palette palette_at_start) 1 <> Some (0, 0, 0) /\
  term_color (fst (Term.init_palette palettes_at_start)) 1 <> Some (0, 0, 0).
Proof.
  assert (Hg : length palette_at_start = 256%nat) by reflexivity.
  assert (Ht : length (fst palettes_at_start) = 256%nat) by reflexivity.
  split; [split; [exact Hg | split; [exact Ht | lia]]|].
  destruct (only_cold_cells_are_black palette_at_start palettes_at_start 1 Hg Ht
              ltac:(lia)) as [Kg Kt].
  split; intros Hblack; [apply Kg in Hblack | apply Kt in Hblack]; discriminate.
Defined.

(** ** The output buffer of fire.c *)

Lemma string_length_list (str : string) :
  String.length str = length (String.list_ascii_of_string str).
Proof.
  induction str as [|c str IH]; [reflexivity|].
  simpl. f_equal. exact IH.
Qed.

Lemma string_length_append (a b : string) :
  String.length (a +:+ b) = (String.length a + String.length b)%nat.
Proof.
  induction a as [|c a IH]; [reflexivity|].
  simpl. f_equal. exact IH.
Qed.

Lemma inserts_middle {A : Type} (n : nat) (k l : list A) :
  (n + length k <= length l)%nat ->
  list_inserts n k l = take n l ++ k ++ drop (n + length k) l.
Proof.
  revert l. induction n as [|n IH]; intros l Hlen.
  - simpl. rewrite <- (take_drop (length k) l) at 1.
    apply list_inserts_0_r. rewrite length_take. lia.
  - destruct l as [|x l]; [simpl in Hlen; lia|].
    rewrite list_inserts_cons. simpl. f_equal. apply IH. simpl in Hlen. lia.
Qed.

Lemma take_inserts {A : Type} (n : nat) (k l : list A) :
  (n + length k <= length l)%nat ->
  take (n + length k) (list_inserts n k l) = take n l ++ k.
Proof.
  intros Hlen. rewrite inserts_middle by exact Hlen.
  rewrite app_assoc.
  rewrite take_app_length'; [reflexivity|].
  rewrite length_app, length_take. lia.
Qed.

Lemma flush_buffer_facts o :
  buffer_ok o ->
  buffer_ok (Terminal.flush_buffer o) /\
  Terminal.out_buf_len (Terminal.flush_buffer o) = 0 /\
  Terminal.written (Terminal.flush_buffer o) = emitted o /\
  emitted (Terminal.flush_buffer o) = emitted o.
Proof.
  intros [Hsize Hlen]. unfold Terminal.flush_buffer, emitted, buffer_ok.
  destruct (Terminal.out_buf_len o >? 0) eqn:Hpos; simpl.
  - rewrite app_nil_r. unfold Terminal.OUT_BUF_SIZE in *. repeat split; (lia || auto).
  - assert (Hzero : Terminal.out_buf_len o = 0) by lia.
    rewrite Hzero. simpl. rewrite app_nil_r. repeat split; (lia || auto).
Qed.

Lemma append_to_buffer_facts (str : string) (len : Z) o :
  buffer_ok o ->
  0 <= len < Terminal.OUT_BUF_SIZE ->
  len <= Z.of_nat (String.length str) ->
  let o' := Terminal.append_to_buffer str len o in
  buffer_ok o' /\
  emitted o' = emitted o ++ take (Z.to_nat len) (String.list_ascii_of_string str) /\
  (Terminal.written o' = Terminal.written o \/ Terminal.written o' = emitted o).
Proof.
  intros Hok Hlen Hstr o'. subst o'. unfold Terminal.append_to_buffer.
  set (o1 := if Terminal.out_buf_len o + len >=? Terminal.OUT_BUF_SIZE
             then Terminal.flush_buffer o else o).
  assert (H1 : buffer_ok o1 /\ emitted o1 = emitted o /\
               Terminal.out_buf_len o1 + len < Terminal.OUT_BUF_SIZE /\
               (Terminal.written o1 = Terminal.written o \/
                Terminal.written o1 = emitted o)).
  { subst o1.
    destruct (Terminal.out_buf_len o + len >=? Terminal.OUT_BUF_SIZE) eqn:Hfull.
    - destruct (flush_buffer_facts o Hok) as (Hk & Hz & Hw & He).
      rewrite Hz. repeat split; (apply Hk || lia || auto).
    - repeat split; (apply Hok || lia || auto). }
  destruct H1 as ([Hsize Hl1] & He & Hfit & Hw). cbv zeta.
  rewrite string_length_list in Hstr.
  set (chunk := take (Z.to_nat len) (String.list_ascii_of_string str)).
  assert (Hchunk : length chunk = Z.to_nat len).
  { subst chunk. rewrite length_take. lia. }
  unfold buffer_ok, emitted, Terminal.memcpy in *. simpl. fold chunk.
  split; [|split].
  - rewrite length_inserts. split; [exact Hsize | lia].
  - rewrite <- He.
    replace (Z.to_nat (Terminal.out_buf_len o1 + len))
      with (Z.to_nat (Terminal.out_buf_len o1) + length chunk)%nat by lia.
    rewrite take_inserts by lia. rewrite app_assoc. reflexivity.
  - exact Hw.
Qed.

Lemma initial_output_ok : buffer_ok Terminal.initial_output.
Proof.
  unfold buffer_ok, Terminal.initial_output.
  cbn [Terminal.out_buf Terminal.out_buf_len].
  rewrite length_replicate. unfold Terminal.OUT_BUF_SIZE. lia.
Qed.

(** [append_to_buffer] keeps the text in order and never overruns
    [out_buf]: for a text shorter than the buffer, the bytes produced
    so far (written, then waiting) grow by exactly the [len] bytes
    appended, [out_buf_len] stays below [OUT_BUF_SIZE], and what is
    handed to [write(2)] on the way is the whole waiting text or
    nothing. *)
Theorem append_to_buffer_keeps_stream (str : string) (len : Z) o :
  buffer_ok o ->
  0 <= len < Terminal.OUT_BUF_SIZE ->
  len <= Z.of_nat (String.length str) ->
  let o' := Terminal.append_to_buffer str len o in
  buffer_ok o' /\
  emitted o' = emitted o ++ take (Z.to_nat len) (String.list_ascii_of_string str) /\
  (Terminal.written o' = Terminal.written o \/ Terminal.written o' = emitted o).
Proof. exact (append_to_buffer_facts str len o). Qed.

Lemma append_to_buffer_keeps_stream_witness :
  (buffer_ok Terminal.initial_output /\
   0 <= 3 < Terminal.OUT_BUF_SIZE /\
   3 <= Z.of_nat (String.length (String Terminal.ESC "[H"))) /\
  emitted (Terminal.append_to_buffer (String Terminal.ESC "[H") 3 Terminal.initial_output)
  = emitted Terminal.initial_output
    ++ take (Z.to_nat 3) (String.list_ascii_of_string (String Terminal.ESC "[H")).
Proof.
  assert (Hlen : 0 <= 3 < Terminal.OUT_BUF_SIZE) by (unfold Terminal.OUT_BUF_SIZE; lia).
  assert (Hstr : 3 <= Z.of_nat (String.length (String Terminal.ESC "[H")))
    by (simpl; lia).
  split; [split; [exact initial_output_ok | split; [exact Hlen | exact Hstr]]|].
  apply (append_to_buffer_keeps_stream (String Terminal.ESC "[H") 3 _
           initial_output_ok Hlen Hstr).
Defined.

(** ** [render] *)

Lemma decimal_length n : heat_ok n -> (String.length (Terminal.decimal n) <= 3)%nat.
Proof.
  intros Hn. revert n Hn.
  assert (Hall : forall i, 0 <= i < 256 ->
            (String.length (Terminal.decimal i) <= 3)%nat).
  { apply (below_256 (fun i => (String.length (Terminal.decimal i) <= 3)%nat)).
    vm_compute. reflexivity. }
  intros n Hn. apply Hall. unfold heat_ok in Hn. lia.
Qed.

Lemma pixel_text_length d h :
  display_ok d -> (String.length (Terminal.pixel_text d h) <= 20)%nat.
Proof.
  intros [Hrgb H256]. unfold Terminal.pixel_text.
  destruct (Terminal.truecolor d).
  - set (c := default (Term.MkColor 0 0 0) (Terminal.palette_rgb d !! Z.to_nat h)).
    assert (Hc : heat_ok (Term.r c) /\ heat_ok (Term.g c) /\ heat_ok (Term.b c)).
    { subst c. destruct (Terminal.palette_rgb d !! Z.to_nat h) as [c|] eqn:Hl; simpl.
      - exact (Forall_lookup_1 _ _ _ _ Hrgb Hl).
      - unfold heat_ok. lia. }
    destruct Hc as (Hr & Hg & Hb).
    apply decimal_length in Hr, Hg, Hb.
    cbv zeta. simpl. rewrite !string_length_append. simpl. lia.
  - pose proof (decimal_length _ (peek_ok (Terminal.palette_256 d) h H256)) as Hc.
    cbv zeta. simpl. rewrite !string_length_append. simpl. lia.
Qed.

Lemma seqZ_snoc n : 0 <= n -> seqZ 0 (n + 1) = seqZ 0 n ++ [n].
Proof.
  intros Hn. rewrite seqZ_app by lia. f_equal.
Qed.

Lemma render_cell_facts d t y x o :
  buffer_ok o -> display_ok d ->
  buffer_ok (Terminal.render_cell d t y x o) /\
  emitted (Terminal.render_cell d t y x o)
  = emitted o ++ String.list_ascii_of_string
                   (Terminal.pixel_text d (load (Term.fire t) (y * Term.width t + x))).
Proof.
  intros Hok Hd. unfold Terminal.render_cell. cbv zeta.
  set (text := Terminal.pixel_text d (load (Term.fire t) (y * Term.width t + x))).
  pose proof (pixel_text_length d (load (Term.fire t) (y * Term.width t + x)) Hd) as Hlen.
  fold text in Hlen.
  destruct (append_to_buffer_facts text (Z.of_nat (String.length text)) o Hok)
    as (Hok' & He & _).
  - unfold Terminal.OUT_BUF_SIZE. lia.
  - lia.
  - split; [exact Hok'|]. rewrite He. f_equal.
    apply take_ge. rewrite <- string_length_list. lia.
Qed.

Lemma render_cells_facts d t o n :
  buffer_ok o -> display_ok d -> 0 <= Term.width t -> 0 <= n ->
  let o' := for_loop 0 n (fun y => for_loop 0 (Term.width t) (Terminal.render_cell d t y)) o in
  buffer_ok o' /\
  emitted o'
  = emitted o
    ++ concat (map (fun i => String.list_ascii_of_string
                               (Terminal.pixel_text d (load (Term.fire t) i)))
                   (seqZ 0 (n * Term.width t))).
Proof.
  intros Hok Hd HW Hn o'. subst o'.
  set (txt := fun i => String.list_ascii_of_string
                         (Terminal.pixel_text d (load (Term.fire t) i))).
  apply (for_loop_invariant
           (fun y o' => buffer_ok o' /\
                        emitted o' = emitted o
                                     ++ concat (map txt (seqZ 0 (y * Term.width t))))).
  - exact Hn.
  - split; [exact Hok|]. rewrite Z.mul_0_l, seqZ_nil by lia.
    cbn [map concat]. rewrite app_nil_r. reflexivity.
  - intros y oy Hy [Hoky Hey].
    replace ((y + 1) * Term.width t) with (y * Term.width t + Term.width t) by lia.
    apply (for_loop_invariant
             (fun x o' => buffer_ok o' /\
                          emitted o' = emitted o
                                       ++ concat (map txt (seqZ 0 (y * Term.width t + x))))).
    + exact HW.
    + split; [exact Hoky|]. rewrite Z.add_0_r. exact Hey.
    + intros x ox Hx [Hokx Hex].
      destruct (render_cell_facts d t y x ox Hokx Hd) as [Hok' He'].
      split; [exact Hok'|]. rewrite He', Hex.
      replace (y * Term.width t + (x + 1)) with (y * Term.width t + x + 1) by lia.
      rewrite seqZ_snoc by nia.
      rewrite map_app, concat_app. simpl. rewrite app_nil_r, app_assoc. reflexivity.
Qed.

Lemma render_facts d t o :
  buffer_ok o -> display_ok d -> 0 <= Term.width t ->
  let o' := Terminal.render d t o in
  Terminal.written o' = emitted o ++ frame_text d t /\
  Terminal.out_buf_len o' = 0 /\
  buffer_ok o' /\
  (forall h, (String.length (Terminal.pixel_text d h) <= 20)%nat).
Proof.
  intros Hok Hd HW o'. subst o'. unfold Terminal.render. cbv zeta.
  assert (Hsize : 4 < Terminal.OUT_BUF_SIZE) by (unfold Terminal.OUT_BUF_SIZE; lia).
  destruct (append_to_buffer_facts (String Terminal.ESC "[H") 3 o Hok
              ltac:(lia) ltac:(simpl; lia)) as (Hok1 & He1 & _).
  set (o1 := Terminal.append_to_buffer (String Terminal.ESC "[H") 3 o) in *.
  assert (Hcells :
            let o2 := for_loop 0 (Term.height t - 1)
                        (fun y => for_loop 0 (Term.width t) (Terminal.render_cell d t y)) o1 in
            buffer_ok o2 /\
            emitted o2
            = emitted o1
              ++ concat (map (fun i => String.list_ascii_of_string
                                         (Terminal.pixel_text d (load (Term.fire t) i)))
                             (seqZ 0 ((Term.height t - 1) * Term.width t)))).
  { destruct (Z_le_gt_dec 0 (Term.height t - 1)) as [Hrows|Hnone].
    - apply render_cells_facts; assumption.
    - cbv zeta. rewrite for_loop_nil by lia. rewrite seqZ_nil by nia.
      simpl. rewrite app_nil_r. split; [exact Hok1 | reflexivity]. }
  cbv zeta in Hcells. destruct Hcells as [Hok2 He2].
  set (o2 := for_loop 0 (Term.height t - 1)
               (fun y => for_loop 0 (Term.width t) (Terminal.render_cell d t y)) o1) in *.
  destruct (append_to_buffer_facts (String Terminal.ESC "[0m") 4 o2 Hok2
              ltac:(lia) ltac:(simpl; lia)) as (Hok3 & He3 & _).
  set (o3 := Terminal.append_to_buffer (String Terminal.ESC "[0m") 4 o2) in *.
  destruct (flush_buffer_facts o3 Hok3) as (Hok4 & Hz & Hw & _).
  split; [|split; [exact Hz | split; [exact Hok4 | intros h; apply pixel_text_length; exact Hd]]].
  rewrite Hw, He3, He2, He1. unfold frame_text.
  rewrite <- !app_assoc. reflexivity.
Qed.

Lemma init_palette_display_ok (pals : list Term.ColorRGB * list Z) (tc : bool) :
  length (fst pals) = 256%nat -> length (snd pals) = 256%nat ->
  display_ok (Terminal.MkDisplay tc (fst (Term.init_palette pals))
                                 (snd (Term.init_palette pals))).
Proof.
  intros Hf Hs. unfold display_ok.
  cbn [Terminal.palette_rgb Terminal.palette_256].
  rewrite term_palette_fst, term_palette_snd.
  destruct (fill_spec Term.ramp 256 (fst pals) ltac:(lia)) as (Hl1 & Hin1 & _).
  destruct (fill_spec Term.ramp_256 256 (snd pals) ltac:(lia)) as (Hl2 & Hin2 & _).
  cbv zeta in *. split; apply Forall_lookup; intros k v Hk.
  - pose proof (lookup_lt_Some _ _ _ Hk) as Hlt. rewrite Hl1, Hf in Hlt.
    rewrite <- (Nat2Z.id k) in Hk. rewrite Hin1 in Hk by lia.
    injection Hk as <-. unfold Term.ramp.
    repeat case_match; simpl; repeat split;
      first [apply to_u8_ok | unfold heat_ok; lia].
  - pose proof (lookup_lt_Some _ _ _ Hk) as Hlt. rewrite Hl2, Hs in Hlt.
    rewrite <- (Nat2Z.id k) in Hk. rewrite Hin2 in Hk by lia.
    injection Hk as <-.
    destruct (ramp_256_facts (Z.of_nat k) ltac:(lia)) as (Hrange & _).
    unfold heat_ok. lia.
Qed.

(** [render] writes exactly one frame, after whatever was waiting: the
    cursor-home sequence, one coloured blank for every cell of rows
    0 .. height-2 in row-major order (the bottom source row is not
    drawn), then the colour reset.  Nothing is left in [out_buf]
    afterwards, [out_buf] is never overrun, and no cell text is longer
    than 20 bytes, so [pixel_buf[64]] holds it. *)
Theorem render_writes_frame d t o :
  buffer_ok o -> display_ok d -> 0 <= Term.width t ->
  let o' := Terminal.render d t o in
  Terminal.written o' = emitted o ++ frame_text d t /\
  Terminal.out_buf_len o' = 0 /\
  buffer_ok o' /\
  (forall h, (String.length (Terminal.pixel_text d h) <= 20)%nat).
Proof. exact (render_facts d t o). Qed.

Lemma render_writes_frame_witness :
  (buffer_ok Terminal.initial_output /\
   display_ok (Terminal.MkDisplay true (fst (Term.init_palette palettes_at_start))
                                  (snd (Term.init_palette palettes_at_start))) /\
   0 <= Term.width (Term.MkState 2 2 frame_stale [])) /\
  Terminal.written
    (Terminal.render (Terminal.MkDisplay true (fst (Term.init_palette palettes_at_start))
                                         (snd (Term.init_palette palettes_at_start)))
                     (Term.MkState 2 2 frame_stale []) Terminal.initial_output)
  = String.list_ascii_of_string
      (String Terminal.ESC "[H"
       +:+ String Terminal.ESC "[48;2;28;0;0m "
       +:+ String Terminal.ESC "[48;2;28;0;0m "
       +:+ String Terminal.ESC "[0m").
Proof.
  assert (Hd : display_ok (Terminal.MkDisplay true
                             (fst (Term.init_palette palettes_at_start))
                             (snd (Term.init_palette palettes_at_start)))).
  { apply init_palette_display_ok; reflexivity. }
  assert (HW : 0 <= Term.width (Term.MkState 2 2 frame_stale [])) by (simpl; lia).
  split; [split; [exact initial_output_ok | split; [exact Hd | exact HW]]|].
  destruct (render_writes_frame _ (Term.MkState 2 2 frame_stale []) _
              initial_output_ok Hd HW) as (Hw & _).
  etransitivity; [exact Hw|]. vm_compute. reflexivity.
Defined.

(** ** The loop of [main] *)

Lemma main_loop_turn_facts d e t o :
  turn_fits e -> grid_fits t -> buffer_ok o -> display_ok d ->
  exists t' o',
    Terminal.main_loop_turn d e (t, o) = Some (t', o') /\
    Term.width t' = Terminal.ws_col e /\ Term.height t' = Terminal.ws_row e /\
    well_formed (Terminal.ws_col e) (Terminal.ws_row e) (Term.fire t') /\
    Term.fire t'
    = Term.update_heat (Terminal.ws_col e) (Terminal.ws_row e)
        (if (Terminal.ws_col e =? Term.width t) && (Terminal.ws_row e =? Term.height t)
         then Term.fire t
         else MkFire (replicate (Z.to_nat (Terminal.ws_col e * Terminal.ws_row e)) 0)
                     (rand_seq (Term.fire t)) (rand_calls (Term.fire t))) /\
    Terminal.written o' = emitted o ++ frame_text d t' /\
    Terminal.out_buf_len o' = 0 /\
    buffer_ok o'.
Proof.
  intros (Hc & Hr & Hint & Hroom) [Hlen Hheat] Hok Hd.
  destruct e as [c r fr pr].
  cbn [Terminal.ws_col Terminal.ws_row Terminal.fire_room Terminal.prev_room] in *.
  unfold Terminal.main_loop_turn.
  cbn [Terminal.ws_col Terminal.ws_row Terminal.fire_room Terminal.prev_room].
  assert (Hshow : forall t1,
            Term.width t1 = c -> Term.height t1 = r -> well_formed c r (Term.fire t1) ->
            let t2 := Term.update_fire t1 in
            Term.width t2 = c /\ Term.height t2 = r /\
            well_formed c r (Term.fire t2) /\
            Term.fire t2 = Term.update_heat c r (Term.fire t1) /\
            Terminal.written (Terminal.render d t2 o) = emitted o ++ frame_text d t2 /\
            Terminal.out_buf_len (Terminal.render d t2 o) = 0 /\
            buffer_ok (Terminal.render d t2 o)).
  { intros t1 Hw1 Hh1 Hwf1 t2.
    assert (Hfire : Term.fire t2 = Term.update_heat c r (Term.fire t1)).
    { subst t2. rewrite term_update_fire_heat, Hw1, Hh1. reflexivity. }
    assert (Hw2 : Term.width t2 = c) by exact Hw1.
    destruct (render_facts d t2 o Hok Hd ltac:(lia)) as (Hwr & Hz & Hok' & _).
    split; [exact Hw2|]. split; [exact Hh1|]. split.
    - rewrite Hfire. apply term_update_well_formed. exact Hwf1.
    - split; [exact Hfire|]. split; [exact Hwr|]. split; [exact Hz | exact Hok']. }
  destruct (calloc_grid fr c r (rand_seq (Term.fire t)) (rand_calls (Term.fire t))
              Hc Hr Hint Hroom) as [Hcells Hwf].
  assert (Hresized :
            exists t' o',
              match Term.Returned
                      (Term.MkState c r
                         (MkFire (Term.calloc fr (to_int (c * r)))
                                 (rand_seq (Term.fire t)) (rand_calls (Term.fire t)))
                         (Term.calloc pr (to_int (c * r)))) with
              | Term.Returned t1 =>
                  Some (Term.update_fire t1, Terminal.render d (Term.update_fire t1) o)
              | Term.Exited _ => None
              end = Some (t', o') /\
              Term.width t' = c /\ Term.height t' = r /\
              well_formed c r (Term.fire t') /\
              Term.fire t'
              = Term.update_heat c r
                  (MkFire (replicate (Z.to_nat (c * r)) 0)
                          (rand_seq (Term.fire t)) (rand_calls (Term.fire t))) /\
              Terminal.written o' = emitted o ++ frame_text d t' /\
              Terminal.out_buf_len o' = 0 /\
              buffer_ok o').
  { destruct (Hshow (Term.MkState c r
                       (MkFire (Term.calloc fr (to_int (c * r)))
                               (rand_seq (Term.fire t)) (rand_calls (Term.fire t)))
                       (Term.calloc pr (to_int (c * r)))) eq_refl eq_refl Hwf)
      as (H1 & H2 & H3 & H4 & H5 & H6 & H7).
    eexists _, _. split; [reflexivity|]. rewrite <- Hcells. auto 10. }
  unfold Term.resize_buffers.
  destruct (Z.eqb_spec c (Term.width t)) as [Hcw|Hcw];
    destruct (Z.eqb_spec r (Term.height t)) as [Hrh|Hrh];
    cbn [negb orb andb]; cbv zeta; try exact Hresized.
  destruct (Hshow t (eq_sym Hcw) (eq_sym Hrh)) as (H1 & H2 & H3 & H4 & H5 & H6 & H7).
  { split; [exact Hc|]. split; [exact Hr|]. split; [|exact Hheat].
    rewrite Hlen, <- Hcw, <- Hrh. reflexivity. }
  eexists _, _. split; [reflexivity|]. auto 10.
Qed.

(** One turn of the loop of [main] at a window with cells, whose cell
    count fits an [int] and whose heat buffer [calloc] can provide,
    never exits.  It leaves the grid at that size with every cell in
    [0, 255]; the heat is one [update_fire] step of the previous heat
    when the size is unchanged and of an all-zero grid when it changed;
    and the frame written shows the heat after that step, with nothing
    left waiting in [out_buf]. *)
Theorem main_loop_turn_draws_update d e t o :
  turn_fits e -> grid_fits t -> buffer_ok o -> display_ok d ->
  exists t' o',
    Terminal.main_loop_turn d e (t, o) = Some (t', o') /\
    Term.width t' = Terminal.ws_col e /\ Term.height t' = Terminal.ws_row e /\
    well_formed (Terminal.ws_col e) (Terminal.ws_row e) (Term.fire t') /\
    Term.fire t'
    = Term.update_heat (Terminal.ws_col e) (Terminal.ws_row e)
        (if (Terminal.ws_col e =? Term.width t) && (Terminal.ws_row e =? Term.height t)
         then Term.fire t
         else MkFire (replicate (Z.to_nat (Terminal.ws_col e * Terminal.ws_row e)) 0)
                     (rand_seq (Term.fire t)) (rand_calls (Term.fire t))) /\
    Terminal.written o' = emitted o ++ frame_text d t' /\
    Terminal.out_buf_len o' = 0 /\
    buffer_ok o'.
Proof.
  intros He Hg Hok Hd.
  destruct (main_loop_turn_facts d e t o He Hg Hok Hd) as (t' & o' & Hturn).
  exists t', o'. exact Hturn.
Qed.

Lemma main_loop_turn_draws_update_witness :
  (turn_fits (Terminal.MkTurn 2 2 1024 1024) /\
   grid_fits (Term.initial (scripted [])) /\
   buffer_ok Terminal.initial_output /\
   display_ok (Terminal.MkDisplay false (fst (Term.init_palette palettes_at_start))
                                  (snd (Term.init_palette palettes_at_start)))) /\
  exists t' o',
    Terminal.main_loop_turn
      (Terminal.MkDisplay false (fst (Term.init_palette palettes_at_start))
                          (snd (Term.init_palette palettes_at_start)))
      (Terminal.MkTurn 2 2 1024 1024)
      (Term.initial (scripted []), Terminal.initial_output) = Some (t', o') /\
    fire_buffer (Term.fire t') = [0; 255; 255; 255] /\
    Terminal.written o'
    = String.list_ascii_of_string
        (String Terminal.ESC "[H"
         +:+ String Terminal.ESC "[48;5;16m "
         +:+ String Terminal.ESC "[48;5;231m "
         +:+ String Terminal.ESC "[0m").
Proof.
  assert (Hd : display_ok (Terminal.MkDisplay false
                             (fst (Term.init_palette palettes_at_start))
                             (snd (Term.init_palette palettes_at_start)))).
  { apply init_palette_display_ok; reflexivity. }
  assert (Hg : grid_fits (Term.initial (scripted []))).
  { split; [reflexivity | constructor]. }
  assert (He : turn_fits (Terminal.MkTurn 2 2 1024 1024)).
  { unfold turn_fits, INT_MAX. cbn. lia. }
  split; [split; [exact He | split; [exact Hg | split;
            [exact initial_output_ok | exact Hd]]]|].
  destruct (main_loop_turn_draws_update _ _ _ _ He Hg initial_output_ok Hd)
    as (t' & o' & Hrun & Hcols & Hrows & _ & Hfire & Hw & _).
  exists t', o'. split; [exact Hrun|].
  split.
  - rewrite Hfire. vm_compute. reflexivity.
  - etransitivity; [exact Hw|]. unfold frame_text. rewrite Hfire, Hcols, Hrows.
    vm_compute. reflexivity.
Defined.

(** From a consistent state the loop of [main] runs through any
    sequence of turns without exiting, as long as every window has
    cells, its cell count fits an [int] and [calloc] can provide its
    heat buffer: after every turn the heat buffer has exactly
    width * height cells, each in [0, 255], [out_buf] is not overrun,
    and after the last turn the dimensions are the last size reported
    and nothing is left waiting in [out_buf]. *)
Theorem main_loop_keeps_grid d (turns : list Terminal.Turn) t o :
  Forall turn_fits turns ->
  grid_fits t -> buffer_ok o -> display_ok d ->
  exists t' o',
    Terminal.main_loop d turns (t, o) = Some (t', o') /\
    grid_fits t' /\ buffer_ok o' /\
    (forall e, last turns = Some e ->
       Term.width t' = Terminal.ws_col e /\ Term.height t' = Terminal.ws_row e /\
       well_formed (Terminal.ws_col e) (Terminal.ws_row e) (Term.fire t') /\
       Terminal.out_buf_len o' = 0).
Proof.
  intros Hturns. revert t o.
  induction Hturns as [|e rest He Hrest IH]; intros t o Hg Hok Hd.
  - exists t, o. split; [reflexivity|]. split; [exact Hg|]. split; [exact Hok|].
    intros e Hlast. discriminate Hlast.
  - destruct (main_loop_turn_facts d e t o He Hg Hok Hd)
      as (t1 & o1 & Hrun & Hw1 & Hh1 & Hwf1 & _ & _ & Hz1 & Hok1).
    assert (Hg1 : grid_fits t1).
    { destruct Hwf1 as (_ & _ & Hlen1 & Hheat1). split; [|exact Hheat1].
      rewrite Hlen1, Hw1, Hh1. reflexivity. }
    destruct (IH t1 o1 Hg1 Hok1 Hd) as (t' & o' & Hrest' & Hg' & Hok' & Hlast').
    exists t', o'. cbn [Terminal.main_loop]. rewrite Hrun.
    split; [exact Hrest'|]. split; [exact Hg'|]. split; [exact Hok'|].
    intros e' Hlast. destruct rest as [|e2 rest'].
    + cbn in Hlast. injection Hlast as <-.
      cbn [Terminal.main_loop] in Hrest'. injection Hrest' as <- <-.
      split; [exact Hw1|]. split; [exact Hh1|]. split; [exact Hwf1 | exact Hz1].
    + apply Hlast'. exact Hlast.
Qed.

Lemma main_loop_keeps_grid_witness :
  (Forall turn_fits [Terminal.MkTurn 2 2 1024 1024; Terminal.MkTurn 2 2 4 0;
                     Terminal.MkTurn 3 2 1024 0] /\
   grid_fits (Term.initial (scripted [])) /\
   buffer_ok Terminal.initial_output /\
   display_ok (Terminal.MkDisplay true (fst (Term.init_palette palettes_at_start))
                                  (snd (Term.init_palette palettes_at_start)))) /\
  exists t' o',
    Terminal.main_loop
      (Terminal.MkDisplay true (fst (Term.init_palette palettes_at_start))
                          (snd (Term.init_palette palettes_at_start)))
      [Terminal.MkTurn 2 2 1024 1024; Terminal.MkTurn 2 2 4 0; Terminal.MkTurn 3 2 1024 0]
      (Term.initial (scripted []), Terminal.initial_output) = Some (t', o') /\
    Term.width t' = 3 /\ Term.height t' = 2 /\ well_formed 3 2 (Term.fire t').
Proof.
  assert (Hd : display_ok (Terminal.MkDisplay true
                             (fst (Term.init_palette palettes_at_start))
                             (snd (Term.init_palette palettes_at_start)))).
  { apply init_palette_display_ok; reflexivity. }
  assert (Hg : grid_fits (Term.initial (scripted []))).
  { split; [reflexivity | constructor]. }
  assert (Hs : Forall turn_fits [Terminal.MkTurn 2 2 1024 1024; Terminal.MkTurn 2 2 4 0;
                                 Terminal.MkTurn 3 2 1024 0]).
  { repeat (constructor; [unfold turn_fits, INT_MAX; cbn; lia|]). constructor. }
  split; [split; [exact Hs | split; [exact Hg | split;
            [exact initial_output_ok | exact Hd]]]|].
  destruct (main_loop_keeps_grid _ _ _ _ Hs Hg initial_output_ok Hd)
    as (t' & o' & Hrun & _ & _ & Hlast).
  exists t', o'. split; [exact Hrun|].
  destruct (Hlast _ eq_refl) as (Hw & Hh & Hwf & _).
  split; [exact Hw|]. split; [exact Hh | exact Hwf].
Defined.

Lemma main_loop_turn_prev d e t o t' o' :
  Terminal.main_loop_turn d e (t, o) = Some (t', o') ->
  Forall (fun v => v = 0) (Term.prev_buffer t) ->
  Forall (fun v => v = 0) (Term.prev_buffer t').
Proof.
  unfold Terminal.main_loop_turn, Term.resize_buffers.
  destruct (negb (Terminal.ws_col e =? Term.width t)
            || negb (Terminal.ws_row e =? Term.height t));
    [destruct ((Terminal.ws_col e =? Term.width t)
               && (Terminal.ws_row e =? Term.height t))|];
    cbv zeta; intros Hrun Hprev; injection Hrun as <- _;
    cbn [Term.update_fire Term.prev_buffer];
    first [exact Hprev | apply calloc_zero].
Qed.

(** [prev_buffer], declared as the previous frame for delta rendering,
    is only ever allocated: through any run of the loop of [main] over
    turns whose windows have cells, fit an [int] and can be allocated,
    it never comes to hold anything but zeros. *)
Theorem prev_buffer_stays_clear d (turns : list Terminal.Turn) t o :
  Forall turn_fits turns ->
  grid_fits t -> buffer_ok o -> display_ok d ->
  Forall (fun v => v = 0) (Term.prev_buffer t) ->
  exists t' o',
    Terminal.main_loop d turns (t, o) = Some (t', o') /\
    Forall (fun v => v = 0) (Term.prev_buffer t').
Proof.
  intros Hturns. revert t o.
  induction Hturns as [|e rest He Hrest IH]; intros t o Hg Hok Hd Hprev.
  - exists t, o. split; [reflexivity | exact Hprev].
  - destruct (main_loop_turn_facts d e t o He Hg Hok Hd)
      as (t1 & o1 & Hrun & Hw1 & Hh1 & Hwf1 & _ & _ & _ & Hok1).
    assert (Hg1 : grid_fits t1).
    { destruct Hwf1 as (_ & _ & Hlen1 & Hheat1). split; [|exact Hheat1].
      rewrite Hlen1, Hw1, Hh1. reflexivity. }
    pose proof (main_loop_turn_prev d e t o t1 o1 Hrun Hprev) as Hprev1.
    destruct (IH t1 o1 Hg1 Hok1 Hd Hprev1) as (t' & o' & Hrest' & Hprev').
    exists t', o'. cbn [Terminal.main_loop]. rewrite Hrun.
    split; [exact Hrest' | exact Hprev'].
Qed.

Lemma prev_buffer_stays_clear_witness :
  (Forall turn_fits [Terminal.MkTurn 2 2 1024 1024; Terminal.MkTurn 3 2 1024 1024] /\
   grid_fits (Term.initial (scripted [])) /\
   buffer_ok Terminal.initial_output /\
   display_ok (Terminal.MkDisplay true (fst (Term.init_palette palettes_at_start))
                                  (snd (Term.init_palette palettes_at_start))) /\
   Forall (fun v => v = 0) (Term.prev_buffer (Term.initial (scripted [])))) /\
  exists t' o',
    Terminal.main_loop
      (Terminal.MkDisplay true (fst (Term.init_palette palettes_at_start))
                          (snd (Term.init_palette palettes_at_start)))
      [Terminal.MkTurn 2 2 1024 1024; Terminal.MkTurn 3 2 1024 1024]
      (Term.initial (scripted []), Terminal.initial_output) = Some (t', o') /\
    Forall (fun v => v = 0) (Term.prev_buffer t').
Proof.
  assert (Hd : display_ok (Terminal.MkDisplay true
                             (fst (Term.init_palette palettes_at_start))
                             (snd (Term.init_palette palettes_at_start)))).
  { apply init_palette_display_ok; reflexivity. }
  assert (Hg : grid_fits (Term.initial (scripted []))).
  { split; [reflexivity | constructor]. }
  assert (Hs : Forall turn_fits [Terminal.MkTurn 2 2 1024 1024;
                                 Terminal.MkTurn 3 2 1024 1024]).
  { repeat (constructor; [unfold turn_fits, INT_MAX; cbn; lia|]). constructor. }
  assert (Hp : Forall (fun v => v = 0) (Term.prev_buffer (Term.initial (scripted [])))).
  { constructor. }
  split; [split; [exact Hs | split; [exact Hg | split;
            [exact initial_output_ok | split; [exact Hd | exact Hp]]]]|].
  exact (prev_buffer_stays_clear _ _ _ _ Hs Hg initial_output_ok Hd Hp).
Defined.

(** ** Degenerate grids *)



(** ** The terminal settings of [init_terminal] *)

(** Where each mask of <termios.h> is a single bit, with the four
    local-mode bits distinct: the settings [init_terminal] installs
    have ISIG set whatever it was before (the mask first clears it, the
    next statement sets it, so Ctrl-C still raises SIGINT), have ECHO,
    ICANON, IEXTEN, IXON, ICRNL and OPOST clear, and keep every other
    bit of the three flag words. *)
Theorem raw_settings_bits (echo icanon iexten isig ixon icrnl opost : Z) orig n :
  0 <= echo -> 0 <= icanon -> 0 <= iexten -> 0 <= isig ->
  0 <= ixon -> 0 <= icrnl -> 0 <= opost ->
  isig <> echo -> isig <> icanon -> isig <> iexten ->
  0 <= n ->
  let raw := Terminal.raw_settings (2 ^ echo) (2 ^ icanon) (2 ^ iexten) (2 ^ isig)
                                   (2 ^ ixon) (2 ^ icrnl) (2 ^ opost) orig in
  Z.testbit (Terminal.c_lflag raw) n
  = (if n =? isig then true
     else if (n =? echo) || (n =? icanon) || (n =? iexten) then false
     else Z.testbit (Terminal.c_lflag orig) n) /\
  Z.testbit (Terminal.c_iflag raw) n
  = (if (n =? ixon) || (n =? icrnl) then false
     else Z.testbit (Terminal.c_iflag orig) n) /\
  Z.testbit (Terminal.c_oflag raw) n
  = (if n =? opost then false else Z.testbit (Terminal.c_oflag orig) n).
Proof.
  intros He Hc Hx Hs Ha Hb Hp Hse Hsc Hsx Hn raw. subst raw.
  unfold Terminal.raw_settings.
  cbn [Terminal.c_lflag Terminal.c_iflag Terminal.c_oflag].
  rewrite !Z.lor_spec, !Z.land_spec, !Z.lnot_spec, !Z.lor_spec by lia.
  rewrite !Z.pow2_bits_eqb by lia.
  rewrite !(Z.eqb_sym n).
  split; [|split].
  - destruct (Z.eqb_spec isig n), (Z.eqb_spec echo n), (Z.eqb_spec icanon n),
      (Z.eqb_spec iexten n); try lia;
      destruct (Z.testbit (Terminal.c_lflag orig) n); reflexivity.
  - destruct (Z.eqb_spec ixon n), (Z.eqb_spec icrnl n);
      destruct (Z.testbit (Terminal.c_iflag orig) n); reflexivity.
  - destruct (Z.eqb_spec opost n);
      destruct (Z.testbit (Terminal.c_oflag orig) n); reflexivity.
Qed.

Lemma raw_settings_bits_witness :
  Z.testbit (Terminal.c_lflag
               (Terminal.raw_settings (2 ^ 3) (2 ^ 1) (2 ^ 15) (2 ^ 0)
                                      (2 ^ 10) (2 ^ 8) (2 ^ 0)
                                      (Terminal.MkTermios 1280 5 35386))) 0
  = true.
Proof.
  apply (raw_settings_bits 3 1 15 0 10 8 0 (Terminal.MkTermios 1280 5 35386) 0); lia.
Defined.
